(** * RSS digest generator ([fetch.py]): a shallow embedding and its properties

    The program fetches the feeds of a configuration, turns each raw feed
    entry into an article record, filters by age, caps the number of articles
    per feed, sorts the union newest first and groups it by category.

    Python values are modelled as follows.
    - [str] is a list of Unicode code points ([pystr]); the ellipsis the
      summary ends with is the single code point U+2026.
    - [int] is [Z]; a slice bound may be negative and is modelled as Python
      reads it.
    - An exception is a value of [exn]; a computation that may raise returns
      [result].
    - A [dict] is an association list in insertion order ([dict]).
    - An aware [datetime] in UTC is the record of its components; all the
      datetimes of the program carry [timezone.utc], so they compare by
      components.
    The network, the feed parser and the clock are outside the program: one
    call of [fetch_feed] sees them through a record [env]. *)

From Stdlib Require Import String Ascii.
From Stdlib Require Import List ZArith NArith Bool Lia.
From Stdlib Require Import Sorted Permutation.
Import ListNotations.
Open Scope Z_scope.

(* ------------------------------------------------------------------ *)
(** * Python values *)

Module Py.

(** A code point and a [str]. *)
Definition char := N.
Definition pystr := list char.

(** An ASCII literal as a [str]. *)
Definition py (s : string) : pystr := map N_of_ascii (list_ascii_of_string s).

Definition char_eqb (a b : char) : bool := N.eqb a b.

Fixpoint str_eqb (a b : pystr) : bool :=
  match a, b with
  | [], [] => true
  | x :: a', y :: b' => char_eqb x y && str_eqb a' b'
  | _, _ => false
  end.

(** The exceptions the program can meet. Only subclasses of [Exception]
    are listed: [except Exception] catches every one of them. *)
Inductive exn :=
| TypeError
| ValueError
| OverflowError
| RequestTimeout
| RequestConnectionError
| HTTPError (status : Z)
| OtherError (message : pystr).

Inductive result (A : Type) :=
| Ok (value : A)
| Raise (e : exn).
Arguments Ok {A} value.
Arguments Raise {A} e.

Definition bind {A B : Type} (r : result A) (k : A -> result B) : result B :=
  match r with
  | Ok v => k v
  | Raise e => Raise e
  end.

(** [d.get(key, default)] on the outcome of the lookup. *)
Definition get_default {A : Type} (field : option A) (default : A) : A :=
  match field with
  | Some v => v
  | None => default
  end.

(** [l[:n]] *)
Definition slice_to {A : Type} (l : list A) (n : Z) : list A :=
  if 0 <=? n then firstn (Z.to_nat n) l
  else firstn (length l - Z.to_nat (- n)) l.

(** [str.isspace] on one code point: what [str.split()] and [str.strip()]
    treat as whitespace. *)
Definition is_space (c : char) : bool :=
  ((9 <=? c) && (c <=? 13) || (28 <=? c) && (c <=? 32)
   || (c =? 133) || (c =? 160) || (c =? 5760)
   || (8192 <=? c) && (c <=? 8202)
   || (c =? 8232) || (c =? 8233) || (c =? 8239) || (c =? 8287)
   || (c =? 12288))%N.

Fixpoint lstrip (s : pystr) : pystr :=
  match s with
  | [] => []
  | c :: rest => if is_space c then lstrip rest else s
  end.

(** [s.strip()] *)
Definition strip (s : pystr) : pystr := rev (lstrip (rev (lstrip s))).

(** [s.split()]: the maximal runs of non-whitespace, in order. [word] is the
    run being read, in reading order. *)
Fixpoint split_from (word : pystr) (s : pystr) : list pystr :=
  match s with
  | [] => match word with [] => [] | _ => [word] end
  | c :: rest =>
      if is_space c then
        match word with
        | [] => split_from [] rest
        | _ => word :: split_from [] rest
        end
      else split_from (word ++ [c]) rest
  end.

Definition split (s : pystr) : list pystr := split_from [] s.

(** [sep.join(words)] *)
Fixpoint join (sep : pystr) (words : list pystr) : pystr :=
  match words with
  | [] => []
  | [w] => w
  | w :: more => w ++ sep ++ join sep more
  end.

Fixpoint starts_with (prefix s : pystr) : bool :=
  match prefix, s with
  | [], _ => true
  | p :: prefix', c :: s' => char_eqb p c && starts_with prefix' s'
  | _ :: _, [] => false
  end.

(** A pattern read at the head of a text: the number of code points the
    match covers (never 0 for the patterns of this program) and what
    replaces them. *)
Definition matcher := pystr -> option (nat * pystr).

(** Substitution of the non-overlapping matches, leftmost first, as
    [re.sub] and [str.replace] do it: at a match the replacement is emitted
    and the scan resumes after the matched text ([skip] counts the matched
    code points still to pass over). *)
Fixpoint sub_from (m : matcher) (skip : nat) (s : pystr) : pystr :=
  match s with
  | [] => []
  | c :: rest =>
      match skip with
      | S k => sub_from m k rest
      | O =>
          match m s with
          | Some (S k, repl) => repl ++ sub_from m k rest
          | _ => c :: sub_from m 0 rest
          end
      end
  end.

Definition sub (m : matcher) (s : pystr) : pystr := sub_from m 0 s.

(** [s.replace(old, new)], [old] not empty. *)
Definition literal (old new : pystr) : matcher :=
  fun s => if starts_with old s then Some (length old, new) else None.

Definition replace (old new : pystr) (s : pystr) : pystr :=
  sub (literal old new) s.

(** A [dict] with [str] keys, in insertion order. *)
Definition dict (V : Type) := list (pystr * V).

Fixpoint dict_get {V : Type} (k : pystr) (d : dict V) : option V :=
  match d with
  | [] => None
  | (k', v) :: d' => if str_eqb k' k then Some v else dict_get k d'
  end.

(** [d[k] = v]: an existing key keeps its place, a new one goes last. *)
Fixpoint dict_set {V : Type} (k : pystr) (v : V) (d : dict V) : dict V :=
  match d with
  | [] => [(k, v)]
  | (k', v') :: d' =>
      if str_eqb k' k then (k', v) :: d' else (k', v') :: dict_set k v d'
  end.

Definition keys {V : Type} (d : dict V) : list pystr := map fst d.
Definition values {V : Type} (d : dict V) : list V := map snd d.

End Py.

Import Py.

Notation "x <- r ;; k" := (bind r (fun x => k))
  (at level 61, r at next level, right associativity).

(* ------------------------------------------------------------------ *)
(** * [datetime]: aware datetimes in UTC *)

Module Datetime.

Record datetime := mk_datetime {
  year : Z; month : Z; day : Z;
  hour : Z; minute : Z; second : Z; microsecond : Z
}.

Definition is_leap (y : Z) : bool :=
  (y mod 4 =? 0) && (negb (y mod 100 =? 0) || (y mod 400 =? 0)).

Definition days_in_month (y m : Z) : Z :=
  if m =? 2 then (if is_leap y then 29 else 28)
  else if (m =? 4) || (m =? 6) || (m =? 9) || (m =? 11) then 30
  else 31.

(** The proleptic Gregorian ordinal of a date (1 for 0001-01-01). *)
Definition days_before_year (y : Z) : Z :=
  let y := y - 1 in y * 365 + y / 4 - y / 100 + y / 400.

Definition DAYS_BEFORE_MONTH : list Z :=
  [0; 0; 31; 59; 90; 120; 151; 181; 212; 243; 273; 304; 334].

Definition days_before_month (y m : Z) : Z :=
  nth (Z.to_nat m) DAYS_BEFORE_MONTH 0
  + (if (2 <? m) && is_leap y then 1 else 0).

Definition ymd2ord (y m d : Z) : Z :=
  days_before_year y + days_before_month y m + d.

(** The date of an ordinal, by 400-, 100-, 4- and 1-year cycles. *)
Definition ord2ymd (n : Z) : Z * Z * Z :=
  let n := n - 1 in
  let n400 := n / 146097 in
  let n := n mod 146097 in
  let y := n400 * 400 + 1 in
  let n100 := n / 36524 in
  let n := n mod 36524 in
  let n4 := n / 1461 in
  let n := n mod 1461 in
  let n1 := n / 365 in
  let n := n mod 365 in
  let y := y + n100 * 100 + n4 * 4 + n1 in
  if (n1 =? 4) || (n100 =? 4) then (y - 1, 12, 31)
  else
    let leapyear := (n1 =? 3) && (negb (n4 =? 24) || (n100 =? 3)) in
    let m := Z.shiftr (n + 50) 5 in
    let preceding :=
      nth (Z.to_nat m) DAYS_BEFORE_MONTH 0
      + (if (2 <? m) && leapyear then 1 else 0) in
    if n <? preceding then
      let m := m - 1 in
      let preceding :=
        preceding
        - (nth (Z.to_nat m) [0; 31; 28; 31; 30; 31; 30; 31; 31; 30; 31; 30; 31] 0
           + (if (m =? 2) && leapyear then 1 else 0)) in
      (y, m, n - preceding + 1)
    else (y, m, n - preceding + 1).

Definition in_range (lo x hi : Z) : bool := (lo <=? x) && (x <=? hi).

(** [datetime] called on unpacked positional arguments and
    [tzinfo=timezone.utc]: year, month and day are
    required, hour, minute, second and microsecond default to 0; a missing
    required argument (or too many) is a [TypeError], a component out of
    range a [ValueError]. *)
Definition datetime_utc (args : list Z) : result datetime :=
  match args with
  | y :: m :: d :: time =>
      if (7 <? Z.of_nat (length args)) then Raise TypeError
      else
        let H := nth 0 time 0 in
        let M := nth 1 time 0 in
        let S := nth 2 time 0 in
        let us := nth 3 time 0 in
        if in_range 1 y 9999 && in_range 1 m 12
           && in_range 1 d (days_in_month y m)
           && in_range 0 H 23 && in_range 0 M 59 && in_range 0 S 59
           && in_range 0 us 999999
        then Ok (mk_datetime y m d H M S us)
        else Raise ValueError
  | _ => Raise TypeError
  end.

(** [datetime.min.replace(tzinfo=timezone.utc)] *)
Definition datetime_min : datetime := mk_datetime 1 1 1 0 0 0 0.

(** Two datetimes with the same [tzinfo] compare by their components, the
    most significant first. *)
Definition components (d : datetime) : list Z :=
  [year d; month d; day d; hour d; minute d; second d; microsecond d].

Fixpoint lex_compare (a b : list Z) : comparison :=
  match a, b with
  | [], [] => Eq
  | [], _ :: _ => Lt
  | _ :: _, [] => Gt
  | x :: a', y :: b' =>
      match x ?= y with
      | Eq => lex_compare a' b'
      | c => c
      end
  end.

Definition dt_compare (a b : datetime) : comparison :=
  lex_compare (components a) (components b).

(** [a < b] and [a <= b] *)
Definition dt_ltb (a b : datetime) : bool :=
  match dt_compare a b with Lt => true | _ => false end.
Definition dt_leb (a b : datetime) : bool := negb (dt_ltb b a).

Definition dt_lt (a b : datetime) : Prop := dt_ltb a b = true.
Definition dt_le (a b : datetime) : Prop := dt_leb a b = true.

(** Microseconds since the start of day 0 of the ordinal count. *)
Definition to_micros (d : datetime) : Z :=
  (((ymd2ord (year d) (month d) (day d) * 24 + hour d) * 60 + minute d) * 60
   + second d) * 1000000 + microsecond d.

Definition MAXORDINAL : Z := 3652059.

Definition of_micros (n : Z) : result datetime :=
  let us := n mod 1000000 in
  let s := n / 1000000 in
  let S := s mod 60 in
  let mi := s / 60 in
  let M := mi mod 60 in
  let h := mi / 60 in
  let H := h mod 24 in
  let ord := h / 24 in
  if in_range 1 ord MAXORDINAL then
    let '(y, m, d) := ord2ymd ord in Ok (mk_datetime y m d H M S us)
  else Raise OverflowError.

(** [now - timedelta(hours=h)], [h] an [int]; a result outside
    0001-01-01 .. 9999-12-31 is an [OverflowError]. *)
Definition sub_hours (now : datetime) (h : Z) : result datetime :=
  of_micros (to_micros now - h * 3600000000).

Definition digit (n : Z) : char := Z.to_N (48 + n).

(** Decimal digits of [0 <= n < 100]: minutes are zero-padded, hours and
    days are not. *)
Definition two_digits (n : Z) : pystr := [digit (n / 10); digit (n mod 10)].
Definition no_pad (n : Z) : pystr :=
  if n <? 10 then [digit n] else two_digits n.

Definition month_abbr (m : Z) : pystr :=
  py (nth (Z.to_nat (m - 1))
        ["Jan"; "Feb"; "Mar"; "Apr"; "May"; "Jun";
         "Jul"; "Aug"; "Sep"; "Oct"; "Nov"; "Dec"]%string EmptyString).

Definition middle_dot : char := 183%N.

(** [d.strftime("%-I:%M %p · %b %-d")] in the C locale. *)
Definition strftime_display (d : datetime) : pystr :=
  let h12 := if hour d mod 12 =? 0 then 12 else hour d mod 12 in
  no_pad h12 ++ py ":" ++ two_digits (minute d) ++ py " "
  ++ (if hour d <? 12 then py "AM" else py "PM")
  ++ py " " ++ [middle_dot] ++ py " "
  ++ month_abbr (month d) ++ py " " ++ no_pad (day d).

End Datetime.

Import Datetime.

(* ------------------------------------------------------------------ *)
(** * [_clean_summary] *)

Module Summary.

Definition LT : char := 60%N.
Definition GT : char := 62%N.

(** Index of the first [>] of a text. *)
Fixpoint find_gt (s : pystr) : option nat :=
  match s with
  | [] => None
  | c :: rest =>
      if char_eqb c GT then Some O
      else match find_gt rest with
           | Some n => Some (S n)
           | None => None
           end
  end.

(** The pattern [<[^>]+>] read at the head of a text: a [<], then every
    code point up to the first [>], of which there is at least one. The
    match is replaced by the empty string. *)
Definition tag : matcher :=
  fun s =>
    match s with
    | c :: body =>
        if char_eqb c LT then
          match find_gt body with
          | Some (S n) => Some ((S n + 2)%nat, [])
          | _ => None
          end
        else None
    | [] => None
    end.

(** [re.sub(r"<[^>]+>", "", raw)] *)
Definition strip_tags (raw : pystr) : pystr := sub tag raw.

Definition QUOTE : pystr := [34%N].

(** The chain of five [replace] calls, [&amp;] first. *)
Definition decode_entities (s : pystr) : pystr :=
  replace (py "&quot;") QUOTE
    (replace (py "&#39;") (py "'")
       (replace (py "&gt;") (py ">")
          (replace (py "&lt;") (py "<")
             (replace (py "&amp;") (py "&") s)))).

(** [" ".join(clean.split())] *)
Definition collapse_whitespace (s : pystr) : pystr := join (py " ") (split s).

(** The text before truncation. *)
Definition normalized (raw : pystr) : pystr :=
  collapse_whitespace (decode_entities (strip_tags raw)).

Definition ELLIPSIS : pystr := [8230%N].

Definition truncate (clean : pystr) : pystr :=
  if 280 <? Z.of_nat (length clean) then firstn 280 clean ++ ELLIPSIS
  else clean.

Definition _clean_summary (raw : pystr) : pystr := truncate (normalized raw).

(** The five entities of the specification, decoded in one pass from left
    to right: every occurrence of an entity in the input becomes its
    character, and decoded text is not read again. It is what the chain of
    [decode_entities] is compared with. *)
Definition entity : matcher :=
  fun s =>
    if starts_with (py "&amp;") s then Some (5%nat, py "&")
    else if starts_with (py "&lt;") s then Some (4%nat, py "<")
    else if starts_with (py "&gt;") s then Some (4%nat, py ">")
    else if starts_with (py "&#39;") s then Some (5%nat, py "'")
    else if starts_with (py "&quot;") s then Some (6%nat, QUOTE)
    else None.

Definition decode_one_pass (s : pystr) : pystr := sub entity s.

End Summary.

Import Summary.

(* ------------------------------------------------------------------ *)
(** * Feed entries and [parse_published] *)

Module Entry.

(** A raw entry as the feed parser exposes it. A time attribute holds what
    [getattr(entry, attr, None)] returns: [None] when the attribute is
    missing or is [None], otherwise the time tuple. A text field holds what
    the lookup of [entry.get] finds: [None] when the key is missing. *)
Record entry := mk_entry {
  published_parsed : option (list Z);
  updated_parsed : option (list Z);
  entry_title : option pystr;
  entry_link : option pystr;
  entry_summary : option pystr
}.

Inductive time_attr := PublishedParsed | UpdatedParsed.

Definition getattr (e : entry) (attr : time_attr) : option (list Z) :=
  match attr with
  | PublishedParsed => published_parsed e
  | UpdatedParsed => updated_parsed e
  end.

(** The loop of [parse_published] over the attribute names: the first
    attribute whose value is truthy (a non-empty tuple) gives the datetime,
    built from its first six components. *)
Fixpoint first_datetime (e : entry) (attrs : list time_attr)
  : result (option datetime) :=
  match attrs with
  | [] => Ok None
  | attr :: more =>
      match getattr e attr with
      | Some (x :: t) =>
          dt <- datetime_utc (firstn 6 (x :: t)) ;; Ok (Some dt)
      | _ => first_datetime e more
      end
  end.

Definition parse_published (e : entry) : result (option datetime) :=
  first_datetime e [PublishedParsed; UpdatedParsed].

End Entry.

Import Entry.

(* ------------------------------------------------------------------ *)
(** * [fetch_feed] *)

Module Fetcher.

Record feed_config := mk_feed_config {
  url : pystr;
  name : pystr;
  feed_category : option pystr
}.

Record article := mk_article {
  title : pystr;
  link : pystr;
  summary : pystr;
  published : option datetime;
  published_str : pystr;
  source : pystr;
  category : pystr
}.

Record response := mk_response {
  status_code : Z;
  content : list N
}.

(** What one call of [fetch_feed] sees of the outside: the answer of
    [requests.get] for a URL (a response or an exception), the entries
    [feedparser.parse] reads from a body, and the clock. *)
Record env := mk_env {
  requests_get : pystr -> result response;
  feedparser_parse : list N -> result (list entry);
  now : datetime
}.

(** [response.raise_for_status()] *)
Definition raise_for_status (r : response) : result unit :=
  if (400 <=? status_code r) && (status_code r <? 600)
  then Raise (HTTPError (status_code r))
  else Ok tt.

(** The body of the [try] block: the entries of the parsed feed. *)
Definition retrieve (w : env) (u : pystr) : result (list entry) :=
  r <- requests_get w u ;;
  _ <- raise_for_status r ;;
  feedparser_parse w (content r).

Definition GENERAL : pystr := py "General".

Definition make_article (name category : pystr) (e : entry)
  (pub : option datetime) : article :=
  {| title := strip (get_default (entry_title e) (py "No title"));
     link := get_default (entry_link e) (py "#");
     summary := _clean_summary (get_default (entry_summary e) []);
     published := pub;
     published_str :=
       match pub with
       | Some d => strftime_display d
       | None => py "Date unknown"
       end;
     source := name;
     category := category |}.

(** [pub and pub < cutoff] *)
Definition too_old (pub : option datetime) (cutoff : datetime) : bool :=
  match pub with
  | Some d => dt_ltb d cutoff
  | None => false
  end.

(** The [for] loop over the sliced entries; [articles] is the list built so
    far. [continue] goes on with the same list, [break] returns. *)
Fixpoint scan (name category : pystr) (cutoff : datetime) (max_articles : Z)
  (entries : list entry) (articles : list article) : result (list article) :=
  match entries with
  | [] => Ok articles
  | e :: rest =>
      pub <- parse_published e ;;
      if too_old pub cutoff then
        scan name category cutoff max_articles rest articles
      else
        let articles := articles ++ [make_article name category e pub] in
        if max_articles <=? Z.of_nat (length articles) then Ok articles
        else scan name category cutoff max_articles rest articles
  end.

Definition fetch_feed (w : env) (feed : feed_config)
  (max_age_hours max_articles : Z) : result (list article) :=
  let category := get_default (feed_category feed) GENERAL in
  match retrieve w (url feed) with
  | Raise _ => Ok []
  | Ok [] => Ok []
  | Ok entries =>
      cutoff <- sub_hours (now w) max_age_hours ;;
      scan (name feed) category cutoff max_articles
        (slice_to entries (max_articles * 2)) []
  end.

End Fetcher.

Import Fetcher.

(* ------------------------------------------------------------------ *)
(** * [build_digest] *)

Module Digest.

Record settings := mk_settings {
  max_age_hours : option Z;
  max_articles_per_feed : option Z;
  timezone : option pystr;
  site_title : option pystr
}.

Record config := mk_config {
  config_settings : settings;
  feeds : list feed_config
}.

(** The arguments handed to the template. The time zone of the settings
    only serves the generation time; that time and the rendering belong to
    the clock, the time-zone database and the template engine, and are not
    modelled. *)
Record digest := mk_digest {
  digest_title : pystr;
  grouped : dict (list article);
  total : Z;
  digest_max_age_hours : Z
}.

(** The loop over the configured feeds; the [i]-th call of [fetch_feed]
    sees the outside as [world i]. [categories] is the per-category tally. *)
Fixpoint fetch_all (world : nat -> env) (i : nat) (max_age max_per_feed : Z)
  (feed_cfgs : list feed_config)
  (all_articles : list article) (categories : dict Z)
  : result (list article * dict Z) :=
  match feed_cfgs with
  | [] => Ok (all_articles, categories)
  | feed_cfg :: rest =>
      articles <- fetch_feed (world i) feed_cfg max_age max_per_feed ;;
      let all_articles := all_articles ++ articles in
      let cat := get_default (feed_category feed_cfg) GENERAL in
      let count := get_default (dict_get cat categories) 0 in
      let categories :=
        dict_set cat (count + Z.of_nat (length articles)) categories in
      fetch_all world (S i) max_age max_per_feed rest all_articles categories
  end.

(** [a["published"] or datetime.min.replace(tzinfo=timezone.utc)] *)
Definition sort_key (a : article) : datetime :=
  match published a with
  | Some d => d
  | None => datetime_min
  end.

(** [list.sort(key=sort_key, reverse=True)]: the stable sort by
    non-increasing key. [insert a l] puts [a], which stood before every
    element of [l], in front of the first element whose key is not greater
    than its own. *)
Fixpoint insert (a : article) (l : list article) : list article :=
  match l with
  | [] => [a]
  | b :: l' =>
      if dt_leb (sort_key b) (sort_key a) then a :: l
      else b :: insert a l'
  end.

Fixpoint sort_newest_first (l : list article) : list article :=
  match l with
  | [] => []
  | a :: l' => insert a (sort_newest_first l')
  end.

(** [grouped.setdefault(article["category"], []).append(article)] *)
Definition add_to_group (g : dict (list article)) (a : article)
  : dict (list article) :=
  dict_set (category a) (get_default (dict_get (category a) g) [] ++ [a]) g.

Definition group_by_category (l : list article) : dict (list article) :=
  fold_left add_to_group l [].

Definition build_digest (world : nat -> env) (cfg : config) : result digest :=
  let s := config_settings cfg in
  let max_age := get_default (max_age_hours s) 24 in
  let max_per_feed := get_default (max_articles_per_feed s) 10 in
  collected <- fetch_all world 0 max_age max_per_feed (feeds cfg) [] [] ;;
  let all_articles := sort_newest_first (fst collected) in
  Ok {| digest_title := get_default (site_title s) (py "Daily Digest");
        grouped := group_by_category all_articles;
        total := Z.of_nat (length all_articles);
        digest_max_age_hours := max_age |}.

End Digest.

Import Digest.

(* ------------------------------------------------------------------ *)
(** * Vocabulary of the properties *)

Module Vocabulary.

(** A time attribute that [if t] rejects: missing, [None], or empty. *)
Definition falsy (v : option (list Z)) : Prop := v = None \/ v = Some [].

(** Components that [datetime] accepts. *)
Definition valid_components (y m d H M S : Z) : Prop :=
  1 <= y <= 9999 /\ 1 <= m <= 12 /\ 1 <= d <= days_in_month y m
  /\ 0 <= H <= 23 /\ 0 <= M <= 59 /\ 0 <= S <= 59.

Definition AMP : char := 38%N.

(** The five replacements of [decode_entities], in the order of the chain. *)
Definition R1 : pystr -> pystr := replace (py "&amp;") (py "&").
Definition R2 : pystr -> pystr := replace (py "&lt;") (py "<").
Definition R3 : pystr -> pystr := replace (py "&gt;") (py ">").
Definition R4 : pystr -> pystr := replace (py "&#39;") (py "'").
Definition R5 : pystr -> pystr := replace (py "&quot;") QUOTE.

(** A text in which some [&amp;] is directly followed by the rest of
    another of the five entities ([lt;], [gt;], [#39;] or [quot;]). *)
Fixpoint doubly_encoded (s : pystr) : bool :=
  match s with
  | [] => false
  | _ :: rest =>
      starts_with (py "&amp;lt;") s || starts_with (py "&amp;gt;") s
      || starts_with (py "&amp;#39;") s || starts_with (py "&amp;quot;") s
      || doubly_encoded rest
  end.

(** [a] may stand directly before [b] in a list sorted newest first: the
    sort key of [a] is not below that of [b]. *)
Definition newest_first (a b : article) : Prop :=
  dt_le (sort_key b) (sort_key a).

Definition dt_eqb (a b : datetime) : bool :=
  match dt_compare a b with Eq => true | _ => false end.

(** The articles whose sort key is [k]. *)
Definition has_key (k : datetime) (a : article) : bool :=
  dt_eqb (sort_key a) k.

(** The articles of category [c]. *)
Definition has_category (c : pystr) (a : article) : bool :=
  str_eqb (category a) c.

(** The failures of a feed: the request raises (a timeout, a connection
    error or any other exception), the response has an error status (400
    to 599, the statuses for which [raise_for_status] raises), the parser
    raises, or the parsed feed has no entry. *)
Inductive feed_failure (w : env) (u : pystr) : Prop :=
| transport_failure (e : exn) :
    requests_get w u = Raise e -> feed_failure w u
| error_status (r : response) :
    requests_get w u = Ok r ->
    400 <= status_code r < 600 -> feed_failure w u
| parser_failure (r : response) (e : exn) :
    requests_get w u = Ok r ->
    feedparser_parse w (content r) = Raise e -> feed_failure w u
| no_entries (r : response) :
    requests_get w u = Ok r ->
    feedparser_parse w (content r) = Ok [] -> feed_failure w u.

(** The articles of the entries that pass the age filter, in the order of
    the entries. (An entry whose date cannot be built makes the scan raise;
    it gives no article.) *)
Fixpoint accepted (name cat : pystr) (cutoff : datetime)
  (entries : list entry) : list article :=
  match entries with
  | [] => []
  | e :: rest =>
      match parse_published e with
      | Ok pub =>
          if too_old pub cutoff then accepted name cat cutoff rest
          else make_article name cat e pub :: accepted name cat cutoff rest
      | Raise _ => accepted name cat cutoff rest
      end
  end.

(** An article that the age filter lets through: undated, or not older
    than the cutoff. *)
Definition fresh (cutoff : datetime) (a : article) : Prop :=
  forall p, published a = Some p -> dt_le cutoff p.

(** Matchers whose match lies within the text and is not shorter than its
    replacement. *)
Definition shrinking (m : matcher) : Prop :=
  forall s n repl, m s = Some (n, repl) ->
                   (n <= length s)%nat /\ (length repl <= n)%nat.

Definition SPACE : char := 32%N.

(** A run of code points none of which is whitespace, and a word. *)
Definition solid (w : pystr) : Prop := Forall (fun c => is_space c = false) w.
Definition word (w : pystr) : Prop := w <> [] /\ solid w.

(** Whitespace occurs only as single spaces, each after a code point that
    is not whitespace ([after_space] tells whether the text follows a space
    or starts the whole). *)
Fixpoint tidy (after_space : bool) (s : pystr) : bool :=
  match s with
  | [] => true
  | c :: rest =>
      if is_space c then char_eqb c SPACE && negb after_space && tidy true rest
      else tidy false rest
  end.

(** An entry whose date can be built. *)
Definition parses (e : entry) : Prop := exists pub, parse_published e = Ok pub.

(** The category of a feed: [feed_cfg.get("category", "General")]. *)
Definition category_of (feed : feed_config) : pystr :=
  get_default (feed_category feed) GENERAL.

(** The distinct elements of a list in the order of their first
    occurrence, those of [seen] left out. *)
Fixpoint first_occurrences (seen cs : list pystr) : list pystr :=
  match cs with
  | [] => []
  | c :: rest =>
      if existsb (str_eqb c) seen then first_occurrences seen rest
      else c :: first_occurrences (seen ++ [c]) rest
  end.

(** The feeds of category [c]. *)
Definition feeds_of (c : pystr) (feeds : list feed_config) : list feed_config :=
  filter (fun f => str_eqb (category_of f) c) feeds.

(** A text with no whitespace at its start or at its end. *)
Definition trimmed (s : pystr) : Prop :=
  (forall c t, s = c :: t -> is_space c = false)
  /\ (forall t c, s = t ++ [c] -> is_space c = false).

End Vocabulary.

Import Vocabulary.

(* ------------------------------------------------------------------ *)
(** * A run with three feeds

    Feed A (category Tech) has entries dated 12:00, 11:00 and 09:00 on
    2024-03-10 and one dated two days before; feed B (category News) has
    an entry dated 10:00 and an undated one; feed C times out. The clock
    reads 12:30 on 2024-03-10 and the settings are the defaults. *)

Module Scenario.

Definition struct_time (y m d H M S : Z) : list Z := [y; m; d; H; M; S; 0; 1; 0].

Definition dated (t u : pystr) (y m d H M S : Z) : entry :=
  mk_entry (Some (struct_time y m d H M S)) None (Some t) (Some u) None.

Definition entries_a : list entry :=
  [ dated (py "A noon") (py "http://a/1") 2024 3 10 12 0 0;
    dated (py "A stale") (py "http://a/0") 2024 3 8 12 0 0;
    dated (py "A eleven") (py "http://a/2") 2024 3 10 11 0 0;
    dated (py "A nine") (py "http://a/3") 2024 3 10 9 0 0 ].

Definition entries_b : list entry :=
  [ dated (py "B ten") (py "http://b/1") 2024 3 10 10 0 0;
    mk_entry None None (Some (py "B undated")) (Some (py "http://b/2")) None ].

Definition feed_a := mk_feed_config (py "http://a/feed") (py "Feed A") (Some (py "Tech")).
Definition feed_b := mk_feed_config (py "http://b/feed") (py "Feed B") (Some (py "News")).
Definition feed_c := mk_feed_config (py "http://c/feed") (py "Feed C") None.

Definition outside : env :=
  {| requests_get := fun u =>
       if str_eqb u (url feed_a) then Ok (mk_response 200 [1%N])
       else if str_eqb u (url feed_b) then Ok (mk_response 200 [2%N])
       else if str_eqb u (url feed_c) then Raise RequestTimeout
       else Ok (mk_response 404 []);
     feedparser_parse := fun body =>
       match body with
       | [1%N] => Ok entries_a
       | [2%N] => Ok entries_b
       | _ => Ok []
       end;
     now := mk_datetime 2024 3 10 12 30 0 0 |}.

Definition world (i : nat) : env := outside.


(** A feed whose only entry carries a leap second in its time tuple. *)
Definition leap_second : env :=
  {| requests_get := fun _ => Ok (mk_response 200 []);
     feedparser_parse := fun _ =>
       Ok [dated (py "Leap") (py "http://l/1") 2016 12 31 23 59 60];
     now := mk_datetime 2017 1 1 0 0 0 0 |}.

Definition cfg : config :=
  mk_config (mk_settings None None None None) [feed_a; feed_c; feed_b].

(** The same run when the second fetch meets the feed with the leap
    second. *)
Definition world_leap (i : nat) : env :=
  match i with
  | 1%nat => leap_second
  | _ => outside
  end.

Definition cutoff : datetime := mk_datetime 2024 3 9 12 30 0 0.

Definition art (feed : feed_config) (e : entry) (pub : option datetime) : article :=
  make_article (name feed) (get_default (feed_category feed) GENERAL) e pub.

Definition a_noon := art feed_a (dated (py "A noon") (py "http://a/1") 2024 3 10 12 0 0)
  (Some (mk_datetime 2024 3 10 12 0 0 0)).
Definition a_eleven := art feed_a (dated (py "A eleven") (py "http://a/2") 2024 3 10 11 0 0)
  (Some (mk_datetime 2024 3 10 11 0 0 0)).
Definition a_nine := art feed_a (dated (py "A nine") (py "http://a/3") 2024 3 10 9 0 0)
  (Some (mk_datetime 2024 3 10 9 0 0 0)).
Definition b_ten := art feed_b (dated (py "B ten") (py "http://b/1") 2024 3 10 10 0 0)
  (Some (mk_datetime 2024 3 10 10 0 0 0)).
Definition b_undated := art feed_b
  (mk_entry None None (Some (py "B undated")) (Some (py "http://b/2")) None) None.

Definition expected : digest :=
  {| digest_title := py "Daily Digest";
     grouped := [ (py "Tech", [a_noon; a_eleven; a_nine]);
                  (py "News", [b_ten; b_undated]) ];
     total := 5;
     digest_max_age_hours := 24 |}.

End Scenario.

(* ================================================================== *)
(** * Properties *)

(** Boolean comparisons on [Z] in the hypotheses, as propositions. *)
Ltac zbool :=
  repeat match goal with
         | H : (_ <? _) = true |- _ => apply Z.ltb_lt in H
         | H : (_ <? _) = false |- _ => apply Z.ltb_ge in H
         | H : (_ <=? _) = true |- _ => apply Z.leb_le in H
         | H : (_ <=? _) = false |- _ => apply Z.leb_gt in H
         | H : (_ =? _) = true |- _ => apply Z.eqb_eq in H
         | H : (_ =? _) = false |- _ => apply Z.eqb_neq in H
         end.

(** ** Strings and dictionaries *)

Lemma str_eqb_eq (a b : pystr) : str_eqb a b = true <-> a = b.
Proof.
  revert b; induction a as [|x a IH]; intros [|y b]; simpl;
    try (split; [discriminate | discriminate]); try tauto.
  unfold char_eqb. rewrite andb_true_iff, N.eqb_eq, IH.
  split; [intros [-> ->]; reflexivity | intros H; inversion H; auto].
Qed.

Lemma str_eqb_refl (a : pystr) : str_eqb a a = true.
Proof. apply str_eqb_eq; reflexivity. Qed.

Lemma str_eqb_neq (a b : pystr) : str_eqb a b = false <-> a <> b.
Proof.
  rewrite <- str_eqb_eq. destruct (str_eqb a b); split; congruence.
Qed.

Section DictFacts.
Context {V : Type}.
Implicit Types (d : dict V) (k : pystr) (v : V).

Lemma dict_get_set_same d k v : dict_get k (dict_set k v d) = Some v.
Proof.
  induction d as [|[k' v'] d IH]; simpl.
  - now rewrite str_eqb_refl.
  - destruct (str_eqb k' k) eqn:E; simpl; rewrite E; auto.
Qed.

Lemma dict_get_set_other d k k' v :
  k <> k' -> dict_get k' (dict_set k v d) = dict_get k' d.
Proof.
  intros Hne. induction d as [|[k0 v0] d IH]; simpl.
  - apply str_eqb_neq in Hne. now rewrite Hne.
  - destruct (str_eqb k0 k) eqn:E; simpl.
    + apply str_eqb_eq in E; subst k0.
      apply str_eqb_neq in Hne. now rewrite Hne.
    + now rewrite IH.
Qed.

Lemma dict_get_None d k : dict_get k d = None <-> ~ In k (keys d).
Proof.
  induction d as [|[k' v'] d IH]; simpl; [tauto|].
  destruct (str_eqb k' k) eqn:E.
  - apply str_eqb_eq in E. split; [discriminate | tauto].
  - apply str_eqb_neq in E. tauto.
Qed.

Lemma dict_get_In d k v : dict_get k d = Some v -> In (k, v) d.
Proof.
  induction d as [|[k' v'] d IH]; simpl; [discriminate|].
  destruct (str_eqb k' k) eqn:E.
  - apply str_eqb_eq in E. intros [= ->]. left; congruence.
  - auto.
Qed.

Lemma In_dict_get d k v : NoDup (keys d) -> In (k, v) d -> dict_get k d = Some v.
Proof.
  induction d as [|[k' v'] d IH]; simpl; [tauto|].
  intros Hnd [Heq | Hin].
  - inversion Heq; subst. now rewrite str_eqb_refl.
  - inversion Hnd as [|? ? Hnotin Hnd']; subst.
    destruct (str_eqb k' k) eqn:E; [|auto].
    apply str_eqb_eq in E; subst k'. exfalso; apply Hnotin.
    unfold keys. change k with (fst (k, v)). now apply in_map.
Qed.

Lemma keys_dict_set d k v :
  keys (dict_set k v d) =
  match dict_get k d with
  | Some _ => keys d
  | None => keys d ++ [k]
  end.
Proof.
  induction d as [|[k' v'] d IH]; simpl; [reflexivity|].
  destruct (str_eqb k' k) eqn:E; simpl; [reflexivity|].
  rewrite IH. now destruct (dict_get k d).
Qed.

Lemma NoDup_keys_dict_set d k v : NoDup (keys d) -> NoDup (keys (dict_set k v d)).
Proof.
  intros Hnd. rewrite keys_dict_set.
  destruct (dict_get k d) eqn:E; [assumption|].
  apply dict_get_None in E.
  apply NoDup_rev in Hnd. rewrite <- (rev_involutive (keys d ++ [k])).
  apply NoDup_rev. rewrite rev_app_distr; simpl.
  constructor; [now rewrite <- in_rev | assumption].
Qed.

End DictFacts.

(** ** The summary normalizer *)

Lemma length_truncate (clean : pystr) :
  (280 < length clean)%nat -> length (truncate clean) = 281%nat.
Proof.
  intros H. unfold truncate.
  destruct (280 <? Z.of_nat (length clean)) eqn:E; zbool; [|lia].
  rewrite length_app, length_firstn. change (length ELLIPSIS) with 1%nat. lia.
Qed.

(** C6: when the normalized text has more than 280 code points the summary
    is its first 280 code points followed by the one-character ellipsis, 281
    in all; otherwise the summary is the normalized text. So a summary has
    at most 280 code points, or has 281 and ends in the ellipsis. *)
Theorem clean_summary_truncation (raw : pystr) :
  let clean := normalized raw in
  let out := _clean_summary raw in
  length ELLIPSIS = 1%nat
  /\ ((280 < length clean)%nat ->
      out = firstn 280 clean ++ ELLIPSIS /\ length out = 281%nat)
  /\ ((length clean <= 280)%nat -> out = clean)
  /\ ((length out <= 280)%nat
      \/ (length out = 281%nat
          /\ exists body, length body = 280%nat /\ out = body ++ ELLIPSIS)).
Proof.
  intros clean out. subst out. unfold _clean_summary. fold clean.
  split; [reflexivity|].
  assert (Hlong : (280 < length clean)%nat ->
                  truncate clean = firstn 280 clean ++ ELLIPSIS).
  { intros H. unfold truncate.
    destruct (280 <? Z.of_nat (length clean)) eqn:E; zbool;
      [reflexivity | lia]. }
  assert (Hshort : (length clean <= 280)%nat -> truncate clean = clean).
  { intros H. unfold truncate.
    destruct (280 <? Z.of_nat (length clean)) eqn:E; zbool;
      [lia | reflexivity]. }
  split; [|split].
  - intros H. split; [now apply Hlong | now apply length_truncate].
  - exact Hshort.
  - destruct (Nat.le_gt_cases (length clean) 280) as [H | H].
    + left. now rewrite Hshort.
    + right. split; [now apply length_truncate|].
      exists (firstn 280 clean). split; [|now apply Hlong].
      rewrite length_firstn. lia.
Qed.

(** A text of 400 letters gives a summary of 281 code points, and a text of
    50 letters is returned as it is. *)
Lemma clean_summary_truncation_witness :
  length (_clean_summary (repeat 97%N 400)) = 281%nat
  /\ _clean_summary (repeat 97%N 50) = repeat 97%N 50.
Proof.
  split.
  - destruct (clean_summary_truncation (repeat 97%N 400)) as (_ & H & _ & _).
    apply H. apply Nat.ltb_lt. vm_compute. reflexivity.
  - destruct (clean_summary_truncation (repeat 97%N 50)) as (_ & _ & H & _).
    rewrite H.
    + vm_compute. reflexivity.
    + apply Nat.leb_le. vm_compute. reflexivity.
Defined.

(** The example of the specification: with no markup in the input, the
    entities are decoded and the decoded angle brackets stay. *)
Example clean_summary_entities_example :
  _clean_summary (py "A &amp; B &lt;tag&gt;") = py "A & B <tag>".
Proof. vm_compute. reflexivity. Qed.

(** An entity that is none of the five is left as it is. *)
Example clean_summary_other_entity :
  _clean_summary (py "a&nbsp;b &copy; &#34;") = py "a&nbsp;b &copy; &#34;".
Proof. vm_compute. reflexivity. Qed.

(** *** The chain of replacements and the one-pass decoder *)

Lemma starts_with_split (p s : pystr) :
  starts_with p s = true -> s = p ++ skipn (length p) s.
Proof.
  revert s; induction p as [|c p IH]; intros [|d s]; simpl; try discriminate; auto.
  unfold char_eqb. intros H. apply andb_prop in H. destruct H as [Hc Hs].
  apply N.eqb_eq in Hc. subst d. f_equal. auto.
Qed.

Lemma doubly_encoded_cons (c : char) (s : pystr) :
  doubly_encoded (c :: s) = false -> doubly_encoded s = false.
Proof. cbn [doubly_encoded]. intros H. now apply orb_false_elim in H. Qed.

Lemma doubly_encoded_app (p s : pystr) :
  doubly_encoded (p ++ s) = false -> doubly_encoded s = false.
Proof.
  induction p as [|c p IH]; [auto|].
  intros H. apply IH. exact (doubly_encoded_cons _ _ H).
Qed.

Lemma sub_cons_none (m : matcher) (c : char) (x : pystr) :
  m (c :: x) = None -> sub m (c :: x) = c :: sub m x.
Proof. unfold sub. simpl. intros ->. reflexivity. Qed.

Lemma sub_cons_some (m : matcher) (c : char) (x : pystr) (k : nat) (repl : pystr) :
  m (c :: x) = Some (S k, repl) -> sub m (c :: x) = repl ++ sub_from m k x.
Proof. unfold sub. simpl. intros ->. reflexivity. Qed.

Section Replace.
Variables (tail : pystr) (r0 : char).
Let old := AMP :: tail.
Let R := replace old [r0].

Lemma replace_nil : R [] = [].
Proof. reflexivity. Qed.

Lemma replace_other (d : char) (x : pystr) :
  d <> AMP -> R (d :: x) = d :: R x.
Proof.
  intros Hd. apply sub_cons_none. unfold literal, old. cbn [starts_with].
  unfold char_eqb. replace (AMP =? d)%N with false; [reflexivity|].
  symmetry. apply N.eqb_neq. congruence.
Qed.

Lemma replace_amp_no_match (x : pystr) :
  starts_with tail x = false -> R (AMP :: x) = AMP :: R x.
Proof.
  intros Hx. apply sub_cons_none. unfold literal, old. cbn [starts_with].
  unfold char_eqb. rewrite N.eqb_refl, Hx. reflexivity.
Qed.

Lemma replace_head (x : pystr) :
  exists y, R (AMP :: x) = AMP :: y \/ R (AMP :: x) = r0 :: y.
Proof.
  destruct (starts_with tail x) eqn:Hx.
  - exists (sub_from (literal old [r0]) (length tail) x). right.
    unfold R, replace. apply (sub_cons_some _ _ _ (length tail) [r0]).
    unfold literal, old. cbn [starts_with length].
    unfold char_eqb. now rewrite N.eqb_refl, Hx.
  - exists (R x). left. now apply replace_amp_no_match.
Qed.

Lemma starts_with_replace (q x : pystr) :
  Forall (fun c => c <> AMP /\ c <> r0) q ->
  starts_with q (R x) = starts_with q x.
Proof.
  intros Hq. revert x. induction Hq as [|c q [Hc1 Hc2] Hq IH]; intros x.
  - reflexivity.
  - destruct x as [|d x]; [reflexivity|].
    destruct (N.eq_dec d AMP) as [-> | Hd].
    + destruct (replace_head x) as (y & [-> | ->]); cbn [starts_with];
        unfold char_eqb;
        repeat match goal with
               | |- context [(?a =? ?b)%N] =>
                   replace (a =? b)%N with false
                     by (symmetry; apply N.eqb_neq; congruence)
               end; reflexivity.
    + rewrite replace_other by assumption. cbn [starts_with].
      now rewrite IH.
Qed.

End Replace.

Lemma safe_chars (q : pystr) (r0 : char) :
  forallb (fun c => negb (c =? AMP)%N && negb (c =? r0)%N) q = true ->
  Forall (fun c => c <> AMP /\ c <> r0) q.
Proof.
  rewrite forallb_forall, Forall_forall. intros H c Hc.
  specialize (H c Hc). apply andb_prop in H. destruct H as [H1 H2].
  apply negb_true_iff in H1, H2. apply N.eqb_neq in H1, H2. auto.
Qed.

Lemma decode_entities_chain s : decode_entities s = R5 (R4 (R3 (R2 (R1 s)))).
Proof. reflexivity. Qed.

Ltac through :=
  repeat first
    [ rewrite (starts_with_replace (py "amp;") 38%N) by (apply safe_chars; reflexivity)
    | rewrite (starts_with_replace (py "lt;") 60%N) by (apply safe_chars; reflexivity)
    | rewrite (starts_with_replace (py "gt;") 62%N) by (apply safe_chars; reflexivity)
    | rewrite (starts_with_replace (py "#39;") 39%N) by (apply safe_chars; reflexivity) ].

Lemma chain_amp (y : pystr) :
  starts_with (py "lt;") y = false -> starts_with (py "gt;") y = false ->
  starts_with (py "#39;") y = false -> starts_with (py "quot;") y = false ->
  R5 (R4 (R3 (R2 (AMP :: R1 y)))) = AMP :: R5 (R4 (R3 (R2 (R1 y)))).
Proof.
  intros H2 H3 H4 H5.
  unfold R2 at 1. rewrite (replace_amp_no_match (py "lt;") 60%N).
  2:{ fold R1. unfold R1. through. exact H2. }
  fold R2. unfold R3 at 1. rewrite (replace_amp_no_match (py "gt;") 62%N).
  2:{ unfold R2, R1. through. exact H3. }
  fold R3. unfold R4 at 1. rewrite (replace_amp_no_match (py "#39;") 39%N).
  2:{ unfold R3, R2, R1. through. exact H4. }
  fold R4. unfold R5 at 1. rewrite (replace_amp_no_match (py "quot;") 34%N).
  2:{ unfold R4, R3, R2, R1. through. exact H5. }
  reflexivity.
Qed.

Lemma doubly_encoded_head (s : pystr) :
  doubly_encoded s = false ->
  starts_with (py "&amp;lt;") s = false /\ starts_with (py "&amp;gt;") s = false
  /\ starts_with (py "&amp;#39;") s = false
  /\ starts_with (py "&amp;quot;") s = false.
Proof.
  destruct s as [|c s]; [repeat split; reflexivity|].
  cbn [doubly_encoded]. intros H.
  repeat (apply orb_false_elim in H; destruct H as [H ?]).
  repeat split; assumption.
Qed.

Lemma chain_other (c : char) (x : pystr) :
  c <> AMP -> decode_entities (c :: x) = c :: decode_entities x.
Proof.
  intros Hc. unfold decode_entities.
  rewrite (replace_other (py "amp;") 38%N) by assumption.
  rewrite (replace_other (py "lt;") 60%N) by assumption.
  rewrite (replace_other (py "gt;") 62%N) by assumption.
  rewrite (replace_other (py "#39;") 39%N) by assumption.
  rewrite (replace_other (py "quot;") 34%N) by assumption.
  reflexivity.
Qed.

Lemma one_pass_other (c : char) (x : pystr) :
  c <> AMP -> decode_one_pass (c :: x) = c :: decode_one_pass x.
Proof.
  intros Hc. apply sub_cons_none. unfold entity.
  assert (forall t, starts_with (AMP :: t) (c :: x) = false) as H.
  { intros t. cbn [starts_with]. unfold char_eqb.
    replace (AMP =? c)%N with false; [reflexivity|].
    symmetry. apply N.eqb_neq. congruence. }
  change (py "&amp;") with (AMP :: py "amp;").
  change (py "&lt;") with (AMP :: py "lt;").
  change (py "&gt;") with (AMP :: py "gt;").
  change (py "&#39;") with (AMP :: py "#39;").
  change (py "&quot;") with (AMP :: py "quot;").
  now rewrite !H.
Qed.

Lemma decode_agree_bounded (n : nat) (s : pystr) :
  (length s <= n)%nat -> doubly_encoded s = false ->
  decode_entities s = decode_one_pass s.
Proof.
  revert s; induction n as [|n IH]; intros s Hlen Hde.
  { destruct s; [reflexivity | simpl in Hlen; lia]. }
  destruct s as [|c rest]; [reflexivity|].
  destruct (N.eq_dec c AMP) as [-> | Hc].
  2:{ rewrite chain_other, one_pass_other by assumption. f_equal.
      apply IH; [simpl in Hlen; lia | eapply doubly_encoded_cons; eauto]. }
  assert (Hstep : forall p t, AMP :: rest = p ++ t -> p <> [] ->
            decode_entities t = decode_one_pass t).
  { intros p t Heq Hp. apply IH.
    - apply (f_equal (@length char)) in Heq. rewrite length_app in Heq.
      destruct p; [congruence|]. simpl in *. lia.
    - rewrite Heq in Hde. eapply doubly_encoded_app; eauto. }
  destruct (starts_with (py "&amp;") (AMP :: rest)) eqn:E1.
  { pose proof (starts_with_split _ _ E1) as Heq.
    set (t := skipn (length (py "&amp;")) (AMP :: rest)) in Heq.
    specialize (Hstep _ _ Heq ltac:(discriminate)).
    rewrite Heq in Hde |- *.
    destruct (doubly_encoded_head _ Hde) as (D2 & D3 & D4 & D5).
    change (starts_with (py "lt;") t = false) in D2.
    change (starts_with (py "gt;") t = false) in D3.
    change (starts_with (py "#39;") t = false) in D4.
    change (starts_with (py "quot;") t = false) in D5.
    change (decode_one_pass (py "&amp;" ++ t)) with (AMP :: decode_one_pass t).
    rewrite <- Hstep.
    change (decode_entities (py "&amp;" ++ t))
      with (R5 (R4 (R3 (R2 (AMP :: R1 t))))).
    now apply chain_amp. }
  destruct (starts_with (py "&lt;") (AMP :: rest)) eqn:E2.
  { pose proof (starts_with_split _ _ E2) as Heq.
    set (t := skipn (length (py "&lt;")) (AMP :: rest)) in Heq.
    specialize (Hstep _ _ Heq ltac:(discriminate)).
    rewrite Heq.
    change (decode_one_pass (py "&lt;" ++ t)) with (60%N :: decode_one_pass t).
    rewrite <- Hstep. reflexivity. }
  destruct (starts_with (py "&gt;") (AMP :: rest)) eqn:E3.
  { pose proof (starts_with_split _ _ E3) as Heq.
    set (t := skipn (length (py "&gt;")) (AMP :: rest)) in Heq.
    specialize (Hstep _ _ Heq ltac:(discriminate)).
    rewrite Heq.
    change (decode_one_pass (py "&gt;" ++ t)) with (62%N :: decode_one_pass t).
    rewrite <- Hstep. reflexivity. }
  destruct (starts_with (py "&#39;") (AMP :: rest)) eqn:E4.
  { pose proof (starts_with_split _ _ E4) as Heq.
    set (t := skipn (length (py "&#39;")) (AMP :: rest)) in Heq.
    specialize (Hstep _ _ Heq ltac:(discriminate)).
    rewrite Heq.
    change (decode_one_pass (py "&#39;" ++ t)) with (39%N :: decode_one_pass t).
    rewrite <- Hstep. reflexivity. }
  destruct (starts_with (py "&quot;") (AMP :: rest)) eqn:E5.
  { pose proof (starts_with_split _ _ E5) as Heq.
    set (t := skipn (length (py "&quot;")) (AMP :: rest)) in Heq.
    specialize (Hstep _ _ Heq ltac:(discriminate)).
    rewrite Heq.
    change (decode_one_pass (py "&quot;" ++ t)) with (34%N :: decode_one_pass t).
    rewrite <- Hstep. reflexivity. }
  assert (decode_one_pass (AMP :: rest) = AMP :: decode_one_pass rest) as ->.
  { apply sub_cons_none. unfold entity. now rewrite E1, E2, E3, E4, E5. }
  rewrite <- (Hstep [AMP] rest eq_refl ltac:(discriminate)).
  change (starts_with (py "amp;") rest = false) in E1.
  change (starts_with (py "lt;") rest = false) in E2.
  change (starts_with (py "gt;") rest = false) in E3.
  change (starts_with (py "#39;") rest = false) in E4.
  change (starts_with (py "quot;") rest = false) in E5.
  unfold decode_entities.
  rewrite (replace_amp_no_match (py "amp;") 38%N) by assumption.
  now apply chain_amp.
Qed.

(** Apart from the doubly encoded texts, the chain of replacements decodes
    the five entities of its input, each occurrence once, and nothing
    else. *)
Theorem decode_entities_one_pass (s : pystr) :
  doubly_encoded s = false -> decode_entities s = decode_one_pass s.
Proof. apply (decode_agree_bounded (length s)). lia. Qed.

Lemma decode_entities_one_pass_witness :
  decode_entities (py "Fish &amp; chips &lt;b&gt; &amp;amp; &quot;x&#39;")
  = decode_one_pass (py "Fish &amp; chips &lt;b&gt; &amp;amp; &quot;x&#39;").
Proof. apply decode_entities_one_pass. vm_compute. reflexivity. Defined.

(** C8: the chain of replacements decodes [&amp;] first, so the ampersand
    it produces is read again by the later replacements: [&amp;lt;], the
    entity [&amp;] followed by the letters [lt;], comes out as [<], where
    decoding the entities of the input gives [&lt;]. *)
Theorem decode_entities_decodes_twice :
  decode_entities (py "&amp;lt;") = py "<"
  /\ _clean_summary (py "&amp;lt;") = py "<"
  /\ decode_one_pass (py "&amp;lt;") = py "&lt;".
Proof. vm_compute. repeat split; reflexivity. Qed.

(** ** Entries *)

(** C7 as stated fails: a title or link that is present and empty is kept
    as the empty string, and is not replaced by the default. *)
Lemma make_article_empty_fields_kept :
  let e := mk_entry None None (Some []) (Some []) None in
  let a := make_article (py "Feed") (py "Tech") e None in
  entry_title e = Some [] /\ title a = [] /\ title a <> py "No title"
  /\ entry_link e = Some [] /\ link a = [] /\ link a <> py "#".
Proof. vm_compute. repeat split; discriminate. Qed.

(** C7, amended: the title is ["No title"] when the entry has no title
    field and otherwise the entry's title with the whitespace at both ends
    removed; the link is ["#"] when the entry has no link field and
    otherwise the entry's link. *)
Theorem make_article_title_link (name cat : pystr) (e : entry)
  (pub : option datetime) :
  let a := make_article name cat e pub in
  (entry_title e = None -> title a = py "No title")
  /\ (forall t, entry_title e = Some t -> title a = strip t)
  /\ (entry_link e = None -> link a = py "#")
  /\ (forall l, entry_link e = Some l -> link a = l).
Proof.
  simpl. repeat split; intros; simpl;
    repeat match goal with H : _ = _ |- _ => rewrite H end; reflexivity.
Qed.

Lemma make_article_title_link_witness :
  title (make_article (py "Feed") (py "Tech")
           (mk_entry None None None None None) None) = py "No title"
  /\ link (make_article (py "Feed") (py "Tech")
             (mk_entry None None None None None) None) = py "#"
  /\ title (make_article (py "Feed") (py "Tech")
              (mk_entry None None (Some (py "  Big news ")) (Some (py "http://x/1")) None)
              None) = py "Big news"
  /\ link (make_article (py "Feed") (py "Tech")
             (mk_entry None None (Some (py "  Big news ")) (Some (py "http://x/1")) None)
             None) = py "http://x/1".
Proof.
  destruct (make_article_title_link (py "Feed") (py "Tech")
              (mk_entry None None None None None) None) as (H1 & _ & H2 & _).
  destruct (make_article_title_link (py "Feed") (py "Tech")
              (mk_entry None None (Some (py "  Big news ")) (Some (py "http://x/1")) None)
              None) as (_ & H3 & _ & H4).
  split; [|split; [|split]].
  - apply H1. reflexivity.
  - apply H2. reflexivity.
  - rewrite (H3 (py "  Big news ")); reflexivity.
  - rewrite (H4 (py "http://x/1")); reflexivity.
Defined.

Lemma datetime_utc_six (y m d H M S : Z) (rest : list Z) :
  valid_components y m d H M S ->
  datetime_utc (firstn 6 (y :: m :: d :: H :: M :: S :: rest))
  = Ok (mk_datetime y m d H M S 0).
Proof.
  intros (Hy & Hm & Hd & HH & HM & HS).
  cbn [firstn]. unfold datetime_utc. cbn [length nth Z.of_nat].
  replace (7 <? _) with false by (symmetry; apply Z.ltb_ge; cbn; lia).
  unfold in_range.
  repeat match goal with
         | |- context [?a <=? ?b] =>
             replace (a <=? b) with true by (symmetry; apply Z.leb_le; lia)
         end.
  reflexivity.
Qed.

(** C9: [parse_published] takes the time tuple of [published_parsed] when
    it is present and not empty, otherwise that of [updated_parsed] when it
    is present and not empty, and otherwise gives no timestamp; the
    datetime is built from the first six components of the tuple, which are
    its year, month, day, hour, minute and second. *)
Theorem parse_published_resolution (e : entry) :
  (forall x t, published_parsed e = Some (x :: t) ->
     parse_published e
     = (dt <- datetime_utc (firstn 6 (x :: t)) ;; Ok (Some dt)))
  /\ (forall x t, falsy (published_parsed e) ->
       updated_parsed e = Some (x :: t) ->
       parse_published e
       = (dt <- datetime_utc (firstn 6 (x :: t)) ;; Ok (Some dt)))
  /\ (falsy (published_parsed e) -> falsy (updated_parsed e) ->
      parse_published e = Ok None)
  /\ (forall y m d H M S rest, valid_components y m d H M S ->
      datetime_utc (firstn 6 (y :: m :: d :: H :: M :: S :: rest))
      = Ok (mk_datetime y m d H M S 0)).
Proof.
  unfold parse_published, falsy. cbn [first_datetime getattr].
  repeat split.
  - intros x t ->. reflexivity.
  - intros x t [-> | ->] ->; reflexivity.
  - intros [-> | ->] [-> | ->]; reflexivity.
  - intros. now apply datetime_utc_six.
Qed.

(** An entry dated by its [updated] tuple only, one dated by both, and one
    with no date. *)
Lemma parse_published_resolution_witness :
  parse_published
    (mk_entry (Some [2024; 3; 1; 9; 30; 15; 4; 61; 0])
              (Some [2024; 3; 2; 0; 0; 0; 5; 62; 0]) None None None)
  = Ok (Some (mk_datetime 2024 3 1 9 30 15 0))
  /\ parse_published
       (mk_entry None (Some [2024; 3; 2; 7; 5; 0; 5; 62; 0]) None None None)
     = Ok (Some (mk_datetime 2024 3 2 7 5 0 0))
  /\ parse_published (mk_entry None (Some []) None None None) = Ok None.
Proof.
  split; [|split].
  - destruct (parse_published_resolution
                (mk_entry (Some [2024; 3; 1; 9; 30; 15; 4; 61; 0])
                   (Some [2024; 3; 2; 0; 0; 0; 5; 62; 0]) None None None))
      as (H & _ & _ & _).
    rewrite (H 2024 [3; 1; 9; 30; 15; 4; 61; 0]); reflexivity.
  - destruct (parse_published_resolution
                (mk_entry None (Some [2024; 3; 2; 7; 5; 0; 5; 62; 0])
                   None None None))
      as (_ & H & _ & _).
    rewrite (H 2024 [3; 2; 7; 5; 0; 5; 62; 0]);
      [reflexivity | left; reflexivity | reflexivity].
  - destruct (parse_published_resolution
                (mk_entry None (Some []) None None None)) as (_ & _ & H & _).
    apply H; [left | right]; reflexivity.
Defined.

(** ** The order of datetimes *)

Lemma lex_compare_refl (a : list Z) : lex_compare a a = Eq.
Proof. induction a as [|x a IH]; simpl; [|rewrite Z.compare_refl]; auto. Qed.

Lemma lex_compare_eq (a b : list Z) : lex_compare a b = Eq -> a = b.
Proof.
  revert b; induction a as [|x a IH]; intros [|y b]; simpl;
    try discriminate; auto.
  destruct (Z.compare_spec x y); try discriminate.
  intros H'. f_equal; auto.
Qed.

Lemma lex_compare_antisym (a b : list Z) :
  lex_compare b a = CompOpp (lex_compare a b).
Proof.
  revert b; induction a as [|x a IH]; intros [|y b]; simpl; auto.
  rewrite (Z.compare_antisym x y).
  destruct (x ?= y); simpl; auto.
Qed.

Lemma lex_compare_trans (a b c : list Z) :
  lex_compare a b = Lt -> lex_compare b c = Lt -> lex_compare a c = Lt.
Proof.
  revert b c; induction a as [|x a IH]; intros [|y b] [|z c]; simpl;
    try discriminate; auto.
  destruct (Z.compare_spec x y), (Z.compare_spec y z); try discriminate;
    intros H1 H2; destruct (Z.compare_spec x z); try lia; eauto.
Qed.

Lemma dt_compare_eq (a b : datetime) : dt_compare a b = Eq <-> a = b.
Proof.
  split.
  - intros H. apply lex_compare_eq in H.
    destruct a, b. unfold components in H; simpl in H.
    inversion H; reflexivity.
  - intros ->. apply lex_compare_refl.
Qed.

Lemma dt_eqb_eq (a b : datetime) : dt_eqb a b = true <-> a = b.
Proof.
  unfold dt_eqb. rewrite <- dt_compare_eq.
  destruct (dt_compare a b); split; congruence.
Qed.

Lemma dt_leb_compare (a b : datetime) :
  dt_leb a b = match dt_compare a b with Gt => false | _ => true end.
Proof.
  unfold dt_leb, dt_ltb, dt_compare.
  rewrite (lex_compare_antisym (components a) (components b)).
  now destruct (lex_compare (components a) (components b)).
Qed.

Lemma dt_le_refl (a : datetime) : dt_le a a.
Proof.
  unfold dt_le. rewrite dt_leb_compare.
  now rewrite (proj2 (dt_compare_eq a a) eq_refl).
Qed.

Lemma dt_leb_total (a b : datetime) : dt_leb a b = false -> dt_le b a.
Proof.
  unfold dt_le. rewrite !dt_leb_compare. unfold dt_compare.
  rewrite (lex_compare_antisym (components a) (components b)).
  now destruct (lex_compare (components a) (components b)).
Qed.

Lemma dt_le_trans (a b c : datetime) : dt_le a b -> dt_le b c -> dt_le a c.
Proof.
  unfold dt_le. rewrite !dt_leb_compare.
  destruct (dt_compare a b) eqn:Hab; try discriminate; intros _.
  - apply dt_compare_eq in Hab; subst b. auto.
  - destruct (dt_compare b c) eqn:Hbc; try discriminate; intros _.
    + apply dt_compare_eq in Hbc; subst c. now rewrite Hab.
    + unfold dt_compare in *. now rewrite (lex_compare_trans _ _ _ Hab Hbc).
Qed.

Lemma dt_le_antisym (a b : datetime) : dt_le a b -> dt_le b a -> a = b.
Proof.
  unfold dt_le. rewrite !dt_leb_compare. unfold dt_compare.
  rewrite (lex_compare_antisym (components a) (components b)).
  destruct (lex_compare (components a) (components b)) eqn:E;
    simpl; try discriminate.
  intros _ _. now apply dt_compare_eq.
Qed.

Lemma dt_ltb_not_le (a b : datetime) : dt_ltb a b = true -> ~ dt_le b a.
Proof. unfold dt_le, dt_leb. intros ->. discriminate. Qed.

Lemma dt_ltb_false_le (a b : datetime) : dt_ltb a b = false -> dt_le b a.
Proof. unfold dt_le, dt_leb. intros ->. reflexivity. Qed.

(** No datetime that [datetime] builds is below [datetime.min]. *)
Lemma datetime_min_least (args : list Z) (d : datetime) :
  datetime_utc args = Ok d -> dt_le datetime_min d.
Proof.
  unfold datetime_utc.
  destruct args as [|y [|m [|d0 time]]]; try discriminate.
  destruct (7 <? _); try discriminate.
  destruct (_ && _) eqn:E; try discriminate.
  intros [= <-].
  repeat (apply andb_prop in E; destruct E as [E ?]).
  unfold in_range in *.
  repeat match goal with
         | H : _ && _ = true |- _ => apply andb_prop in H; destruct H
         end.
  zbool.
  unfold dt_le. rewrite dt_leb_compare.
  unfold dt_compare, components, datetime_min; cbn [lex_compare year month day hour minute second microsecond].
  repeat match goal with
         | |- context [?a ?= ?b] =>
             destruct (Z.compare_spec a b); try lia; try reflexivity
         end.
Qed.

(** ** The global sort *)

Lemma newest_first_trans (a b c : article) :
  newest_first a b -> newest_first b c -> newest_first a c.
Proof. unfold newest_first. eauto using dt_le_trans. Qed.

Lemma insert_perm (a : article) (l : list article) :
  Permutation (a :: l) (insert a l).
Proof.
  induction l as [|b l IH]; simpl; [reflexivity|].
  destruct (dt_leb (sort_key b) (sort_key a)); [reflexivity|].
  rewrite perm_swap. now apply perm_skip.
Qed.

Lemma sort_newest_first_perm (l : list article) :
  Permutation l (sort_newest_first l).
Proof.
  induction l as [|a l IH]; simpl; [constructor|].
  rewrite <- insert_perm. now apply perm_skip.
Qed.

Lemma insert_HdRel (a b : article) (l : list article) :
  newest_first b a -> HdRel newest_first b l ->
  HdRel newest_first b (insert a l).
Proof.
  intros Hba Hb. destruct l as [|c l]; simpl; [now constructor|].
  destruct (dt_leb (sort_key c) (sort_key a)); constructor; auto.
  now inversion Hb.
Qed.

Lemma insert_sorted (a : article) (l : list article) :
  Sorted newest_first l -> Sorted newest_first (insert a l).
Proof.
  induction 1 as [|b l Hs IH Hb]; simpl; [repeat constructor|].
  destruct (dt_leb (sort_key b) (sort_key a)) eqn:E.
  - constructor; [now constructor | now constructor].
  - constructor; [assumption|].
    apply insert_HdRel; [|assumption].
    now apply dt_leb_total.
Qed.

Lemma sort_newest_first_sorted (l : list article) :
  Sorted newest_first (sort_newest_first l).
Proof.
  induction l as [|a l IH]; simpl; [constructor | now apply insert_sorted].
Qed.

Lemma sort_newest_first_strongly_sorted (l : list article) :
  StronglySorted newest_first (sort_newest_first l).
Proof.
  apply Sorted_StronglySorted; [|apply sort_newest_first_sorted].
  intros a b c. apply newest_first_trans.
Qed.

(** Inserting an article leaves the articles of every key in the order
    they had, the new one first among those of its own key. *)
Lemma filter_insert (k : datetime) (a : article) (l : list article) :
  filter (has_key k) (insert a l) = filter (has_key k) (a :: l).
Proof.
  induction l as [|b l IH]; simpl; [reflexivity|].
  destruct (dt_leb (sort_key b) (sort_key a)) eqn:E; [reflexivity|].
  simpl in *. rewrite IH.
  destruct (has_key k a) eqn:Ha; [|reflexivity].
  destruct (has_key k b) eqn:Hb; [|reflexivity].
  unfold has_key in Ha, Hb. apply dt_eqb_eq in Ha, Hb.
  rewrite Ha, Hb in E. pose proof (dt_le_refl k) as Hk.
  unfold dt_le in Hk. congruence.
Qed.

Lemma sort_newest_first_stable (k : datetime) (l : list article) :
  filter (has_key k) (sort_newest_first l) = filter (has_key k) l.
Proof.
  induction l as [|a l IH]; simpl; [reflexivity|].
  rewrite filter_insert. simpl. now rewrite IH.
Qed.


Lemma has_key_self (a : article) : has_key (sort_key a) a = true.
Proof. unfold has_key. now apply dt_eqb_eq. Qed.

Lemma has_key_true (k : datetime) (a : article) :
  has_key k a = true <-> sort_key a = k.
Proof. unfold has_key. apply dt_eqb_eq. Qed.

(** The head of a list sorted newest first has the greatest key. *)
Lemma strongly_sorted_head (a : article) (l : list article) (c : article) :
  StronglySorted newest_first (a :: l) -> In c (a :: l) ->
  dt_le (sort_key c) (sort_key a).
Proof.
  intros Hs [<- | Hin]; [apply dt_le_refl|].
  inversion Hs as [|? ? _ Hall]; subst.
  rewrite Forall_forall in Hall. now apply Hall.
Qed.

Lemma filter_key_head (a : article) (l1 l2 : list article) :
  filter (has_key (sort_key a)) l2 = filter (has_key (sort_key a)) (a :: l1) ->
  exists c, In c l2 /\ sort_key c = sort_key a.
Proof.
  simpl. rewrite has_key_self. intros H.
  assert (In a (filter (has_key (sort_key a)) l2)) as Hin
      by (rewrite H; now left).
  apply filter_In in Hin. destruct Hin as [Hin Hk].
  exists a. split; [assumption|]. reflexivity.
Qed.

(** Two lists sorted newest first that hold, for every key, the same
    articles in the same order are equal. *)
Lemma stable_sorted_unique (l1 l2 : list article) :
  StronglySorted newest_first l1 -> StronglySorted newest_first l2 ->
  (forall k, filter (has_key k) l1 = filter (has_key k) l2) ->
  l1 = l2.
Proof.
  revert l2; induction l1 as [|a t1 IH]; intros [|b t2] H1 H2 Hf.
  - reflexivity.
  - specialize (Hf (sort_key b)). simpl in Hf. rewrite has_key_self in Hf.
    discriminate.
  - specialize (Hf (sort_key a)). simpl in Hf. rewrite has_key_self in Hf.
    discriminate.
  - assert (sort_key a = sort_key b) as Hk.
    { destruct (filter_key_head a t1 (b :: t2)) as (c & Hc & Hkc);
        [symmetry; apply Hf|].
      destruct (filter_key_head b t2 (a :: t1)) as (c' & Hc' & Hkc');
        [apply Hf|].
      apply dt_le_antisym.
      - rewrite <- Hkc. eapply strongly_sorted_head; eauto.
      - rewrite <- Hkc'. eapply strongly_sorted_head; eauto. }
    pose proof (Hf (sort_key a)) as Ha. simpl in Ha.
    rewrite has_key_self in Ha. rewrite Hk, has_key_self in Ha.
    injection Ha as -> Ha.
    f_equal. inversion H1; inversion H2; subst. apply IH; auto.
    intros k. specialize (Hf k). simpl in Hf.
    destruct (has_key k b); [now injection Hf | assumption].
Qed.

(** Whatever algorithm [list.sort] runs, its result is the one of
    [sort_newest_first]: the arrangement in non-increasing key order that
    keeps the order of the articles of equal key is unique. *)
Theorem sort_newest_first_unique (l sorted : list article) :
  Sorted newest_first sorted ->
  (forall k, filter (has_key k) sorted = filter (has_key k) l) ->
  sorted = sort_newest_first l.
Proof.
  intros Hs Hf. apply stable_sorted_unique.
  - apply Sorted_StronglySorted; [|assumption].
    intros a b c. apply newest_first_trans.
  - apply sort_newest_first_strongly_sorted.
  - intros k. now rewrite Hf, sort_newest_first_stable.
Qed.

Lemma sort_newest_first_unique_witness :
  [Scenario.a_noon; Scenario.b_ten; Scenario.b_undated]
  = sort_newest_first [Scenario.b_ten; Scenario.b_undated; Scenario.a_noon].
Proof.
  apply sort_newest_first_unique.
  - repeat constructor.
  - intros k. simpl.
    destruct (has_key k Scenario.a_noon) eqn:Ea;
      destruct (has_key k Scenario.b_ten) eqn:Eb;
      destruct (has_key k Scenario.b_undated) eqn:Eu; try reflexivity;
      apply has_key_true in Ea; try apply has_key_true in Eb;
      try apply has_key_true in Eu; subst k; discriminate.
Defined.


(** ** Grouping by category *)

Lemma dict_get_add_to_group (g : dict (list article)) (a : article) (c : pystr) :
  dict_get c (add_to_group g a)
  = if has_category c a
    then Some (get_default (dict_get c g) [] ++ [a])
    else dict_get c g.
Proof.
  unfold add_to_group, has_category.
  destruct (str_eqb (category a) c) eqn:E.
  - apply str_eqb_eq in E; subst c. apply dict_get_set_same.
  - apply str_eqb_neq in E. now apply dict_get_set_other.
Qed.

Lemma dict_get_fold_add_to_group (l : list article) (g : dict (list article))
  (c : pystr) :
  dict_get c (fold_left add_to_group l g)
  = match dict_get c g, filter (has_category c) l with
    | None, [] => None
    | bucket, more => Some (get_default bucket [] ++ more)
    end.
Proof.
  revert g; induction l as [|a l IH]; intros g; simpl.
  - destruct (dict_get c g); simpl; [now rewrite app_nil_r | reflexivity].
  - rewrite IH, dict_get_add_to_group.
    destruct (has_category c a); [|reflexivity].
    simpl. rewrite <- app_assoc. simpl.
    now destruct (dict_get c g).
Qed.

(** Every key of the grouping holds the articles of its category, in the
    order of the grouped list, and a category with no article has no key. *)
Lemma dict_get_group_by_category (l : list article) (c : pystr) :
  dict_get c (group_by_category l)
  = match filter (has_category c) l with
    | [] => None
    | bucket => Some bucket
    end.
Proof.
  unfold group_by_category. rewrite dict_get_fold_add_to_group. simpl.
  now destruct (filter (has_category c) l).
Qed.

Lemma NoDup_keys_fold_add_to_group (l : list article) (g : dict (list article)) :
  NoDup (keys g) -> NoDup (keys (fold_left add_to_group l g)).
Proof.
  revert g; induction l as [|a l IH]; intros g Hg; simpl; [assumption|].
  apply IH. unfold add_to_group. now apply NoDup_keys_dict_set.
Qed.

Lemma NoDup_keys_group_by_category (l : list article) :
  NoDup (keys (group_by_category l)).
Proof. apply NoDup_keys_fold_add_to_group. constructor. Qed.

Lemma concat_values_add_to_group (g : dict (list article)) (a : article) :
  Permutation (concat (values (add_to_group g a))) (concat (values g) ++ [a]).
Proof.
  unfold add_to_group. generalize (category a) as c. intros c.
  induction g as [|[k v] g IH]; simpl; [reflexivity|].
  destruct (str_eqb k c); simpl.
  - rewrite <- !app_assoc. apply Permutation_app_head, Permutation_app_comm.
  - rewrite IH. now rewrite app_assoc.
Qed.

Lemma concat_values_fold_add_to_group (l : list article) (g : dict (list article)) :
  Permutation (concat (values (fold_left add_to_group l g)))
    (concat (values g) ++ l).
Proof.
  revert g; induction l as [|a l IH]; intros g; simpl.
  - now rewrite app_nil_r.
  - rewrite IH, concat_values_add_to_group. now rewrite <- app_assoc.
Qed.

Lemma concat_values_group_by_category (l : list article) :
  Permutation (concat (values (group_by_category l))) l.
Proof. apply (concat_values_fold_add_to_group l []). Qed.

Lemma strongly_sorted_filter (f : article -> bool) (l : list article) :
  StronglySorted newest_first l -> StronglySorted newest_first (filter f l).
Proof.
  induction 1 as [|a l Hs IH Hall]; simpl; [constructor|].
  destruct (f a); [|assumption].
  constructor; [assumption|].
  rewrite Forall_forall in *. intros b Hb.
  apply filter_In in Hb. now apply Hall.
Qed.

(** C5: the grouping of the sorted list maps a category to the articles of
    that category in the sorted list, in the order they have there (a
    category that no article carries has no bucket); the bucket is not
    sorted again, and is in recency order because the sorted list is. *)
Theorem group_by_category_of_sorted (all_articles : list article) (c : pystr) :
  let sorted := sort_newest_first all_articles in
  dict_get c (group_by_category sorted)
  = match filter (has_category c) sorted with
    | [] => None
    | bucket => Some bucket
    end
  /\ (forall bucket, dict_get c (group_by_category sorted) = Some bucket ->
        bucket = filter (has_category c) sorted
        /\ Sorted newest_first bucket).
Proof.
  cbv zeta. split; [apply dict_get_group_by_category|].
  intros bucket. rewrite dict_get_group_by_category.
  intros H.
  assert (bucket = filter (has_category c) (sort_newest_first all_articles))
    as -> by (destruct (filter _ _); congruence).
  split; [reflexivity|].
  apply StronglySorted_Sorted, strongly_sorted_filter,
    sort_newest_first_strongly_sorted.
Qed.

(** ** The run of the scenario *)

Example scenario_fetch_feed_a :
  fetch_feed Scenario.outside Scenario.feed_a 24 10
  = Ok [Scenario.a_noon; Scenario.a_eleven; Scenario.a_nine].
Proof. vm_compute. reflexivity. Qed.

Example scenario_sorted :
  sort_newest_first
    [Scenario.a_noon; Scenario.a_eleven; Scenario.a_nine;
     Scenario.b_ten; Scenario.b_undated]
  = [Scenario.a_noon; Scenario.a_eleven; Scenario.b_ten;
     Scenario.a_nine; Scenario.b_undated].
Proof. vm_compute. reflexivity. Qed.

Example scenario_build_digest :
  build_digest Scenario.world Scenario.cfg = Ok Scenario.expected.
Proof. vm_compute. reflexivity. Qed.

Example scenario_display :
  published_str Scenario.a_noon = py "12:00 PM " ++ [middle_dot] ++ py " Mar 10"
  /\ published_str Scenario.b_undated = py "Date unknown".
Proof. vm_compute. split; reflexivity. Qed.

Example scenario_cutoff :
  sub_hours (now Scenario.outside) 24 = Ok Scenario.cutoff.
Proof. vm_compute. reflexivity. Qed.

(** ** The scan of one feed *)

Section Scan.
Variables (name cat : pystr) (cutoff : datetime) (max_articles : Z).

Local Abbreviation scan' := (scan name cat cutoff max_articles).
Local Abbreviation accepted' := (accepted name cat cutoff).

Lemma scan_cons (e : entry) (rest : list entry) (acc : list article) :
  scan' (e :: rest) acc
  = match parse_published e with
    | Ok pub =>
        if too_old pub cutoff then scan' rest acc
        else if max_articles <=? Z.of_nat (length (acc ++ [make_article name cat e pub]))
             then Ok (acc ++ [make_article name cat e pub])
             else scan' rest (acc ++ [make_article name cat e pub])
    | Raise x => Raise x
    end.
Proof. simpl. destruct (parse_published e); reflexivity. Qed.

(** A dated entry older than the cutoff leaves the list built so far, and
    so its length, as it was. *)
Lemma scan_skips_old (e : entry) (rest : list entry) (acc : list article)
  (p : datetime) :
  parse_published e = Ok (Some p) -> dt_lt p cutoff ->
  scan' (e :: rest) acc = scan' rest acc.
Proof.
  intros Hp Hlt. rewrite scan_cons, Hp. simpl. unfold dt_lt in Hlt.
  now rewrite Hlt.
Qed.

(** An undated entry is appended whatever the cutoff. *)
Lemma scan_accepts_undated (e : entry) (rest : list entry) (acc : list article) :
  parse_published e = Ok None ->
  scan' (e :: rest) acc
  = if max_articles <=? Z.of_nat (length (acc ++ [make_article name cat e None]))
    then Ok (acc ++ [make_article name cat e None])
    else scan' rest (acc ++ [make_article name cat e None]).
Proof. intros Hp. rewrite scan_cons, Hp. reflexivity. Qed.

Lemma fresh_make_article (e : entry) (pub : option datetime) :
  too_old pub cutoff = false -> fresh cutoff (make_article name cat e pub).
Proof.
  intros Hold p Hp. simpl in Hp. subst pub. simpl in Hold.
  now apply dt_ltb_false_le.
Qed.

Lemma scan_fresh (entries : list entry) (acc arts : list article) :
  scan' entries acc = Ok arts ->
  Forall (fresh cutoff) acc -> Forall (fresh cutoff) arts.
Proof.
  revert acc; induction entries as [|e rest IH]; intros acc.
  - simpl. intros [= <-]. auto.
  - rewrite scan_cons.
    destruct (parse_published e) as [pub|]; [|discriminate].
    destruct (too_old pub cutoff) eqn:Hold; [apply IH|].
    assert (Forall (fresh cutoff) acc ->
            Forall (fresh cutoff) (acc ++ [make_article name cat e pub])) as Hacc.
    { intros H. apply Forall_app. split; [assumption|].
      constructor; [now apply fresh_make_article | constructor]. }
    destruct (max_articles <=? _).
    + intros [= <-]. exact Hacc.
    + intros Hs H. eapply IH; eauto.
Qed.

(** While the list built so far is short of [max_articles], the scan adds
    the accepted articles that are still missing, and no more. *)
Lemma scan_closed_form (entries : list entry) (acc arts : list article) :
  Z.of_nat (length acc) < max_articles ->
  scan' entries acc = Ok arts ->
  arts = acc ++ firstn (Z.to_nat max_articles - length acc) (accepted' entries).
Proof.
  revert acc; induction entries as [|e rest IH]; intros acc Hlen.
  - simpl. intros [= <-]. now rewrite firstn_nil, app_nil_r.
  - rewrite scan_cons. simpl accepted.
    destruct (parse_published e) as [pub|]; [|discriminate].
    destruct (too_old pub cutoff); [now apply IH|].
    rewrite length_app. simpl length.
    destruct (Z.to_nat max_articles - length acc)%nat as [|n] eqn:En; [lia|].
    destruct (max_articles <=? _) eqn:Hmax; zbool.
    + intros [= <-]. replace n with 0%nat by lia. reflexivity.
    + intros Hs. apply IH in Hs; [|rewrite length_app; simpl; lia].
      subst arts. rewrite <- app_assoc. simpl.
      rewrite length_app. simpl.
      replace (Z.to_nat max_articles - (length acc + 1))%nat with n by lia.
      reflexivity.
Qed.

End Scan.

(** ** One feed *)

Lemma retrieve_failure (w : env) (u : pystr) :
  feed_failure w u ->
  (exists e, retrieve w u = Raise e) \/ retrieve w u = Ok [].
Proof.
  unfold retrieve, raise_for_status.
  intros [e He | r Hr Hst | r e Hr He | r Hr He]; rewrite ?He, ?Hr; simpl.
  - left; eauto.
  - replace (400 <=? status_code r) with true by (symmetry; apply Z.leb_le; lia).
    replace (status_code r <? 600) with true by (symmetry; apply Z.ltb_lt; lia).
    simpl. left; eauto.
  - destruct (_ && _); simpl; rewrite ?He; left; eauto.
  - destruct (_ && _); simpl; rewrite ?He; [left | right]; eauto.
Qed.

Lemma fetch_feed_failure (w : env) (feed : feed_config) (age max : Z) :
  feed_failure w (url feed) -> fetch_feed w feed age max = Ok [].
Proof.
  intros H. apply retrieve_failure in H. unfold fetch_feed.
  destruct H as [[e ->] | ->]; reflexivity.
Qed.




(** C3: every dated article that [fetch_feed] returns is dated at or after
    the cutoff, the one value [now - max_age_hours] computed before the
    scan. In the scan a dated entry older than the cutoff is passed over
    and the list of accepted articles, whose length is held against the
    limit, stays as it was; an undated entry is appended whatever the
    cutoff. *)
Theorem fetch_feed_age_filter (w : env) (feed : feed_config) (age max : Z)
  (arts : list article) (cutoff : datetime) :
  fetch_feed w feed age max = Ok arts ->
  sub_hours (now w) age = Ok cutoff ->
  Forall (fresh cutoff) arts
  /\ (forall name cat e rest acc p,
        parse_published e = Ok (Some p) -> dt_lt p cutoff ->
        scan name cat cutoff max (e :: rest) acc
        = scan name cat cutoff max rest acc)
  /\ (forall name cat e rest acc,
        parse_published e = Ok None ->
        scan name cat cutoff max (e :: rest) acc
        = if max <=? Z.of_nat (length (acc ++ [make_article name cat e None]))
          then Ok (acc ++ [make_article name cat e None])
          else scan name cat cutoff max rest
                 (acc ++ [make_article name cat e None])).
Proof.
  intros Hf Hc. split; [|split].
  - unfold fetch_feed in Hf.
    destruct (retrieve w (url feed)) as [[|e es]|]; try (inversion Hf; constructor).
    rewrite Hc in Hf. simpl in Hf.
    eapply scan_fresh; [exact Hf | constructor].
  - intros. eapply scan_skips_old; eauto.
  - intros. now apply scan_accepts_undated.
Qed.

(** Feed A of the scenario: the entry of two days before is left out. *)
Lemma fetch_feed_age_filter_witness :
  Forall (fresh Scenario.cutoff)
    [Scenario.a_noon; Scenario.a_eleven; Scenario.a_nine].
Proof.
  apply (fetch_feed_age_filter Scenario.outside Scenario.feed_a 24 10
           [Scenario.a_noon; Scenario.a_eleven; Scenario.a_nine]
           Scenario.cutoff).
  - vm_compute. reflexivity.
  - vm_compute. reflexivity.
Defined.

Lemma slice_to_nonneg {A : Type} (l : list A) (n : Z) :
  0 <= n -> slice_to l n = firstn (Z.to_nat n) l.
Proof.
  intros H. unfold slice_to.
  destruct (0 <=? n) eqn:E; zbool; [reflexivity | lia].
Qed.

(** C4: with a limit that is not negative, [fetch_feed] returns at most
    [max_articles] articles: the first [max_articles] of the articles
    accepted among the first [2 * max_articles] entries of the feed, in the
    order of the feed. *)
Theorem fetch_feed_cap (w : env) (feed : feed_config) (age max : Z)
  (arts : list article) :
  0 <= max ->
  fetch_feed w feed age max = Ok arts ->
  Z.of_nat (length arts) <= max
  /\ (forall entries cutoff,
        retrieve w (url feed) = Ok entries ->
        sub_hours (now w) age = Ok cutoff ->
        arts = firstn (Z.to_nat max)
                 (accepted (name feed) (get_default (feed_category feed) GENERAL)
                    cutoff (firstn (Z.to_nat (2 * max)) entries))).
Proof.
  intros Hmax Hf.
  assert (Hform : forall entries cutoff,
             retrieve w (url feed) = Ok entries ->
             sub_hours (now w) age = Ok cutoff ->
             arts = firstn (Z.to_nat max)
                      (accepted (name feed)
                         (get_default (feed_category feed) GENERAL)
                         cutoff (firstn (Z.to_nat (2 * max)) entries))).
  { intros entries cutoff Hr Hc. unfold fetch_feed in Hf. rewrite Hr in Hf.
    destruct entries as [|e es].
    - inversion Hf. rewrite firstn_nil. simpl. now rewrite firstn_nil.
    - rewrite Hc in Hf. simpl bind in Hf.
      rewrite slice_to_nonneg in Hf by lia.
      replace (max * 2) with (2 * max) in Hf by lia.
      destruct (Z.eq_dec max 0) as [-> | Hpos].
      + simpl in Hf. inversion Hf. reflexivity.
      + apply scan_closed_form in Hf; [|simpl; lia].
        simpl in Hf. now rewrite Nat.sub_0_r in Hf. }
  split; [|exact Hform].
  unfold fetch_feed in Hf.
  destruct (retrieve w (url feed)) as [entries|] eqn:Hr.
  - destruct entries as [|e es]; [inversion Hf; simpl; lia|].
    destruct (sub_hours (now w) age) as [cutoff|] eqn:Hc; [|discriminate].
    rewrite (Hform _ _ eq_refl eq_refl).
    pose proof (firstn_le_length (Z.to_nat max)
                  (accepted (name feed) (get_default (feed_category feed) GENERAL)
                     cutoff (firstn (Z.to_nat (2 * max)) (e :: es)))).
    lia.
  - inversion Hf. simpl. lia.
Qed.

(** Feed A of the scenario with a limit of two: the scan takes the first
    two of the three articles accepted among the first four entries. *)
Lemma fetch_feed_cap_witness :
  Z.of_nat (length [Scenario.a_noon; Scenario.a_eleven]) <= 2
  /\ (forall entries cutoff,
        retrieve Scenario.outside (url Scenario.feed_a) = Ok entries ->
        sub_hours (now Scenario.outside) 24 = Ok cutoff ->
        [Scenario.a_noon; Scenario.a_eleven]
        = firstn (Z.to_nat 2)
            (accepted (name Scenario.feed_a)
               (get_default (feed_category Scenario.feed_a) GENERAL)
               cutoff (firstn (Z.to_nat (2 * 2)) entries))).
Proof.
  apply (fetch_feed_cap Scenario.outside Scenario.feed_a 24 2
           [Scenario.a_noon; Scenario.a_eleven]).
  - lia.
  - vm_compute. reflexivity.
Defined.

(** ** The digest *)

(** C10: the buckets of the digest partition the collected articles: no
    category has two buckets, the buckets together hold the collected
    articles, each as often as it was collected, every collected article is
    in the bucket of its own category and in no other, and the total is the
    number of collected articles, which is the sum of the bucket lengths. *)
Theorem build_digest_partition (world : nat -> env) (cfg : config) (d : digest) :
  build_digest world cfg = Ok d ->
  exists collected tally,
    fetch_all world 0
      (get_default (max_age_hours (config_settings cfg)) 24)
      (get_default (max_articles_per_feed (config_settings cfg)) 10)
      (feeds cfg) [] [] = Ok (collected, tally)
    /\ NoDup (keys (grouped d))
    /\ Permutation (concat (values (grouped d))) collected
    /\ (forall a, In a collected ->
          exists bucket,
            dict_get (category a) (grouped d) = Some bucket /\ In a bucket)
    /\ (forall c bucket a,
          In (c, bucket) (grouped d) -> In a bucket ->
          c = category a /\ In a collected)
    /\ total d = Z.of_nat (length collected)
    /\ total d
       = Z.of_nat (list_sum (map (@length article) (values (grouped d)))).
Proof.
  unfold build_digest.
  destruct (fetch_all _ _ _ _ _ _ _) as [[collected tally]|] eqn:Hall;
    [|discriminate].
  simpl. intros [= <-]. simpl.
  exists collected, tally.
  pose proof (sort_newest_first_perm collected) as Hperm.
  pose proof (concat_values_group_by_category (sort_newest_first collected))
    as Hcat.
  split; [reflexivity|].
  split; [apply NoDup_keys_group_by_category|].
  split; [now rewrite Hcat, <- Hperm|].
  split; [|split; [|split]].
  - intros a Ha.
    assert (In a (filter (has_category (category a))
                    (sort_newest_first collected))) as Hin.
    { apply filter_In. split.
      - now apply (Permutation_in _ Hperm).
      - apply str_eqb_refl. }
    rewrite dict_get_group_by_category.
    destruct (filter _ _) as [|b bucket]; [contradiction|]. eauto.
  - intros c bucket a Hin Ha.
    apply In_dict_get in Hin; [|apply NoDup_keys_group_by_category].
    rewrite dict_get_group_by_category in Hin.
    assert (bucket = filter (has_category c) (sort_newest_first collected))
      as -> by (destruct (filter _ _); congruence).
    apply filter_In in Ha. destruct Ha as [Ha Hc].
    apply str_eqb_eq in Hc. split; [congruence|].
    apply Permutation_sym in Hperm. now apply (Permutation_in _ Hperm).
  - f_equal. symmetry. now apply Permutation_length.
  - f_equal. rewrite <- length_concat. symmetry. now apply Permutation_length.
Qed.

(** The run of the scenario: five articles in two buckets. *)
Lemma build_digest_partition_witness :
  exists collected tally,
    fetch_all Scenario.world 0 24 10 (feeds Scenario.cfg) [] []
    = Ok (collected, tally)
    /\ NoDup (keys (grouped Scenario.expected))
    /\ Permutation (concat (values (grouped Scenario.expected))) collected
    /\ (forall a, In a collected ->
          exists bucket,
            dict_get (category a) (grouped Scenario.expected) = Some bucket
            /\ In a bucket)
    /\ (forall c bucket a,
          In (c, bucket) (grouped Scenario.expected) -> In a bucket ->
          c = category a /\ In a collected)
    /\ total Scenario.expected = Z.of_nat (length collected)
    /\ total Scenario.expected
       = Z.of_nat (list_sum (map (@length article)
                               (values (grouped Scenario.expected)))).
Proof.
  apply (build_digest_partition Scenario.world Scenario.cfg Scenario.expected).
  vm_compute. reflexivity.
Defined.

(** ** Further properties of the run *)

Lemma length_clean_summary (raw : pystr) :
  (length (_clean_summary raw) <= 281)%nat.
Proof.
  unfold _clean_summary, truncate.
  destruct (280 <? _) eqn:E; zbool; [|lia].
  rewrite length_app, length_firstn. change (length ELLIPSIS) with 1%nat. lia.
Qed.

Lemma scan_all (P : article -> Prop) (name cat : pystr) (cutoff : datetime)
  (max : Z) (entries : list entry) (acc arts : list article) :
  (forall e pub, P (make_article name cat e pub)) ->
  scan name cat cutoff max entries acc = Ok arts ->
  Forall P acc -> Forall P arts.
Proof.
  intros HP. revert acc; induction entries as [|e rest IH]; intros acc.
  - simpl. intros [= <-]. auto.
  - rewrite scan_cons.
    destruct (parse_published e) as [pub|]; [|discriminate].
    destruct (too_old pub cutoff); [apply IH|].
    assert (Forall P acc -> Forall P (acc ++ [make_article name cat e pub]))
      as Hacc by (intros H; apply Forall_app; split; auto).
    destruct (max <=? _).
    + intros [= <-]. exact Hacc.
    + intros Hs H. eapply IH; eauto.
Qed.

(** Every article of a feed carries the name of the feed as its source and
    the category of the feed, ["General"] when the feed has none, and its
    summary has at most 281 code points. *)
Theorem fetch_feed_articles (w : env) (feed : feed_config) (age max : Z)
  (arts : list article) :
  fetch_feed w feed age max = Ok arts ->
  Forall (fun a =>
            source a = name feed
            /\ category a = get_default (feed_category feed) GENERAL
            /\ (length (summary a) <= 281)%nat) arts.
Proof.
  unfold fetch_feed.
  destruct (retrieve w (url feed)) as [[|e es]|];
    try (intros [= <-]; constructor).
  destruct (sub_hours (now w) age) as [cutoff|]; [|discriminate].
  simpl bind. intros Hs.
  eapply scan_all; [|exact Hs | constructor].
  intros e' pub. simpl. repeat split. apply length_clean_summary.
Qed.

Lemma fetch_feed_articles_witness :
  Forall (fun a =>
            source a = py "Feed A" /\ category a = py "Tech"
            /\ (length (summary a) <= 281)%nat)
    [Scenario.a_noon; Scenario.a_eleven; Scenario.a_nine].
Proof.
  apply (fetch_feed_articles Scenario.outside Scenario.feed_a 24 10).
  vm_compute. reflexivity.
Defined.

Lemma fetch_all_failures (world : nat -> env) (age max : Z)
  (feed_cfgs : list feed_config) (i : nat)
  (all_articles : list article) (categories : dict Z) :
  (forall j feed, nth_error feed_cfgs j = Some feed ->
                  feed_failure (world (i + j)%nat) (url feed)) ->
  exists categories',
    fetch_all world i age max feed_cfgs all_articles categories
    = Ok (all_articles, categories').
Proof.
  revert i categories; induction feed_cfgs as [|feed rest IH];
    intros i categories Hfail.
  - simpl. eauto.
  - pose proof (Hfail 0%nat feed eq_refl) as H0.
    rewrite Nat.add_0_r in H0.
    cbn [fetch_all]. rewrite (fetch_feed_failure _ feed age max H0).
    cbn [bind]. rewrite app_nil_r. apply IH.
    intros j f Hj. specialize (Hfail (S j) f Hj).
    now rewrite Nat.add_succ_r in Hfail.
Qed.

(** A run in which every feed fails, and so a run with no feed, gives a
    digest with no bucket and a total of 0, and raises nothing. *)
Theorem build_digest_all_feeds_fail (world : nat -> env) (cfg : config) :
  (forall j feed, nth_error (feeds cfg) j = Some feed ->
                  feed_failure (world j) (url feed)) ->
  exists d, build_digest world cfg = Ok d /\ grouped d = [] /\ total d = 0.
Proof.
  intros Hfail. unfold build_digest.
  destruct (fetch_all_failures world
              (get_default (max_age_hours (config_settings cfg)) 24)
              (get_default (max_articles_per_feed (config_settings cfg)) 10)
              (feeds cfg) 0 [] [] Hfail) as (cats & ->).
  simpl. eauto.
Qed.

Lemma build_digest_all_feeds_fail_witness :
  exists d,
    build_digest Scenario.world
      (mk_config (mk_settings None None None None)
         [Scenario.feed_c; Scenario.feed_c]) = Ok d
    /\ grouped d = [] /\ total d = 0.
Proof.
  apply build_digest_all_feeds_fail.
  intros [|[|j]] feed; simpl; intros [= <-] || (destruct j; discriminate);
    apply transport_failure with (e := RequestTimeout); reflexivity.
Defined.

(** The scan stands outside the [try] block: a time tuple that [datetime]
    rejects (here a leap second) makes [fetch_feed] raise, and the run
    with it. *)
Example fetch_feed_raises_in_scan :
  fetch_feed Scenario.leap_second Scenario.feed_a 24 10 = Raise ValueError
  /\ build_digest (fun _ => Scenario.leap_second) Scenario.cfg
     = Raise ValueError.
Proof. vm_compute. split; reflexivity. Qed.

(** So does a cutoff that falls before the year 1. *)
Example fetch_feed_raises_on_cutoff :
  fetch_feed Scenario.outside Scenario.feed_a (24 * 366 * 2100) 10
  = Raise OverflowError.
Proof. vm_compute. reflexivity. Qed.

(** With a negative limit, which the settings of the specification
    exclude, the slice drops entries from the end and the first accepted
    article ends the scan: the bound of [fetch_feed_cap] needs its
    hypothesis. *)
Example fetch_feed_negative_limit :
  fetch_feed Scenario.outside Scenario.feed_a 24 (-1) = Ok [Scenario.a_noon].
Proof. vm_compute. reflexivity. Qed.

(** ** The summary normalizer, continued *)


Lemma sub_from_skip (m : matcher) (p t : pystr) :
  sub_from m (length p) (p ++ t) = sub_from m 0 t.
Proof. induction p as [|c p IH]; simpl; [destruct t|]; auto. Qed.

Lemma length_sub_from (m : matcher) (k : nat) (s : pystr) :
  shrinking m -> (k <= length s)%nat ->
  (length (sub_from m k s) + k <= length s)%nat.
Proof.
  intros Hm. revert k; induction s as [|c rest IH]; intros k Hk.
  - simpl in *. lia.
  - destruct k as [|k]; cbn [sub_from].
    + destruct (m (c :: rest)) as [[[|n] repl]|] eqn:E.
      * simpl. specialize (IH 0%nat). simpl in IH. lia.
      * destruct (Hm _ _ _ E) as [Hn Hr]. simpl in Hn.
        rewrite length_app. specialize (IH n). simpl. lia.
      * simpl. specialize (IH 0%nat). simpl in IH. lia.
    + simpl in Hk. specialize (IH k). simpl. lia.
Qed.

Lemma length_sub (m : matcher) (s : pystr) :
  shrinking m -> (length (sub m s) <= length s)%nat.
Proof.
  intros Hm. pose proof (length_sub_from m 0 s Hm). unfold sub. lia.
Qed.

Lemma starts_with_length (p s : pystr) :
  starts_with p s = true -> (length p <= length s)%nat.
Proof.
  revert s; induction p as [|c p IH]; intros [|d s]; simpl; try discriminate;
    try lia.
  intros H. apply andb_prop in H. destruct H as [_ H]. apply IH in H. lia.
Qed.

Lemma shrinking_literal (old new : pystr) :
  (length new <= length old)%nat -> shrinking (literal old new).
Proof.
  intros Hlen s n repl. unfold literal.
  destruct (starts_with old s) eqn:E; [|discriminate].
  intros [= <- <-]. split; [now apply starts_with_length | assumption].
Qed.

Lemma find_gt_length (s : pystr) (n : nat) :
  find_gt s = Some n -> (n < length s)%nat.
Proof.
  revert n; induction s as [|c s IH]; intros n; simpl; [discriminate|].
  destruct (char_eqb c GT); [intros [= <-]; lia|].
  destruct (find_gt s); [|discriminate].
  intros [= <-]. specialize (IH _ eq_refl). lia.
Qed.

Lemma shrinking_tag : shrinking tag.
Proof.
  intros s n repl. unfold tag. destruct s as [|c body]; [discriminate|].
  destruct (char_eqb c LT); [|discriminate].
  destruct (find_gt body) as [[|k]|] eqn:E; try discriminate.
  intros [= <- <-]. apply find_gt_length in E. simpl. lia.
Qed.

Lemma length_strip_tags (s : pystr) : (length (strip_tags s) <= length s)%nat.
Proof. apply length_sub, shrinking_tag. Qed.

Lemma length_decode_entities (s : pystr) :
  (length (decode_entities s) <= length s)%nat.
Proof.
  unfold decode_entities.
  repeat (etransitivity; [apply length_sub, shrinking_literal; simpl; lia|]).
  lia.
Qed.

Lemma length_join_split_from (word s : pystr) :
  (length (join (py " ") (split_from word s)) <= length word + length s)%nat.
Proof.
  revert word; induction s as [|c rest IH]; intros word.
  - simpl. destruct word; simpl; lia.
  - cbn [split_from]. destruct (is_space c).
    + destruct word as [|w0 word].
      * specialize (IH []). simpl in *. lia.
      * specialize (IH []). cbn [join].
        destruct (split_from [] rest) eqn:E.
        -- simpl. lia.
        -- rewrite !length_app. simpl in *. lia.
    + specialize (IH (word ++ [c])). rewrite length_app in IH. simpl in *. lia.
Qed.

Lemma length_collapse_whitespace (s : pystr) :
  (length (collapse_whitespace s) <= length s)%nat.
Proof. apply (length_join_split_from [] s). Qed.

Lemma length_normalized (raw : pystr) :
  (length (normalized raw) <= length raw)%nat.
Proof.
  unfold normalized.
  etransitivity; [apply length_collapse_whitespace|].
  etransitivity; [apply length_decode_entities|].
  apply length_strip_tags.
Qed.

(** A summary is never longer than the raw text, and a raw text of at most
    280 code points is not truncated. *)
Theorem clean_summary_never_longer (raw : pystr) :
  (length (_clean_summary raw) <= length raw)%nat
  /\ ((length raw <= 280)%nat -> _clean_summary raw = normalized raw).
Proof.
  pose proof (length_normalized raw) as Hn.
  unfold _clean_summary, truncate.
  destruct (280 <? Z.of_nat (length (normalized raw))) eqn:E; zbool.
  - split; [|lia].
    rewrite length_app, length_firstn. change (length ELLIPSIS) with 1%nat. lia.
  - split; [lia | reflexivity].
Qed.

Lemma char_eqb_eq (a b : char) : char_eqb a b = true <-> a = b.
Proof. apply N.eqb_eq. Qed.

Lemma char_eqb_neq (a b : char) : char_eqb a b = false <-> a <> b.
Proof. apply N.eqb_neq. Qed.

Lemma find_gt_None (s : pystr) : find_gt s = None <-> ~ In GT s.
Proof.
  induction s as [|c s [IH1 IH2]]; simpl; [tauto|].
  destruct (char_eqb c GT) eqn:E.
  - apply char_eqb_eq in E. split; [discriminate | tauto].
  - apply char_eqb_neq in E. destruct (find_gt s).
    + split; [discriminate|]. intros H.
      assert (@None nat = None) as _ by reflexivity.
      exfalso. assert (Some n = None) by (apply IH2; tauto). discriminate.
    + split; [|reflexivity]. intros _ [H | H]; [congruence|].
      now apply IH1.
Qed.

Lemma find_gt_app (body post : pystr) :
  ~ In GT body -> find_gt (body ++ GT :: post) = Some (length body).
Proof.
  induction body as [|c body IH]; simpl; intros H.
  - reflexivity.
  - destruct (char_eqb c GT) eqn:E.
    + apply char_eqb_eq in E. tauto.
    + rewrite IH by tauto. reflexivity.
Qed.

(** A text with no [<], or with no [>], has no tag. *)
Theorem strip_tags_no_bracket (s : pystr) :
  ~ In LT s \/ ~ In GT s -> strip_tags s = s.
Proof.
  unfold strip_tags. induction s as [|c s IH]; [reflexivity|].
  intros H. rewrite sub_cons_none.
  - f_equal. apply IH. simpl in H. tauto.
  - unfold tag. destruct (char_eqb c LT) eqn:E; [|reflexivity].
    apply char_eqb_eq in E. destruct H as [H | H]; [simpl in H; tauto|].
    assert (find_gt s = None) as -> by (apply find_gt_None; simpl in H; tauto).
    reflexivity.
Qed.

(** The leftmost tag of a text is removed, with everything from its [<] to
    the first [>] after it, and the rest is read on from there. *)
Theorem strip_tags_removes_tag (pre body post : pystr) :
  ~ In LT pre -> body <> [] -> ~ In GT body ->
  strip_tags (pre ++ LT :: body ++ GT :: post) = pre ++ strip_tags post.
Proof.
  unfold strip_tags. intros Hpre Hbody Hgt.
  induction pre as [|c pre IH]; simpl app.
  - rewrite (sub_cons_some tag LT _ (length (body ++ [GT])) []).
    + change (sub tag post) with (sub_from tag 0 post).
      rewrite <- (sub_from_skip tag (body ++ [GT]) post).
      now rewrite <- app_assoc.
    + unfold tag. rewrite (proj2 (char_eqb_eq LT LT) eq_refl).
      rewrite find_gt_app by assumption.
      destruct body as [|b body]; [congruence|].
      simpl length. rewrite length_app. simpl. do 3 f_equal. lia.
  - rewrite sub_cons_none.
    + f_equal. apply IH. simpl in Hpre. tauto.
    + unfold tag. replace (char_eqb c LT) with false; [reflexivity|].
      symmetry. apply char_eqb_neq. simpl in Hpre. intros ->. tauto.
Qed.

(** An empty pair of brackets is no tag. *)
Lemma strip_tags_empty_brackets (pre post : pystr) :
  ~ In LT pre ->
  strip_tags (pre ++ LT :: GT :: post) = pre ++ LT :: GT :: strip_tags post.
Proof.
  unfold strip_tags. intros Hpre.
  induction pre as [|c pre IH]; simpl app.
  - rewrite sub_cons_none by reflexivity. rewrite sub_cons_none by reflexivity.
    reflexivity.
  - rewrite sub_cons_none.
    + f_equal. apply IH. simpl in Hpre. tauto.
    + unfold tag. replace (char_eqb c LT) with false; [reflexivity|].
      symmetry. apply char_eqb_neq. simpl in Hpre. intros ->. tauto.
Qed.




Lemma solid_app (a b : pystr) : solid a -> solid b -> solid (a ++ b).
Proof. intros; apply Forall_app; auto. Qed.

Lemma split_from_words (acc s : pystr) :
  solid acc -> Forall word (split_from acc s).
Proof.
  revert acc; induction s as [|c rest IH]; intros acc Hacc.
  - simpl. destruct acc; constructor; [split; [discriminate | assumption]|constructor].
  - cbn [split_from]. destruct (is_space c) eqn:E.
    + destruct acc as [|a acc].
      * apply IH. constructor.
      * constructor; [split; [discriminate | assumption]|].
        apply IH. constructor.
    + apply IH. apply solid_app; [assumption|]. repeat constructor. assumption.
Qed.

Lemma split_words (s : pystr) : Forall word (split s).
Proof. apply split_from_words. constructor. Qed.

Lemma split_from_solid (acc w rest : pystr) :
  solid w -> split_from acc (w ++ rest) = split_from (acc ++ w) rest.
Proof.
  intros Hw. revert acc. induction Hw as [|c w Hc Hw IH]; intros acc.
  - now rewrite app_nil_r.
  - simpl app. cbn [split_from]. rewrite Hc, IH, <- app_assoc. reflexivity.
Qed.

Lemma join_cons (sep w w' : pystr) (ws : list pystr) :
  join sep (w :: w' :: ws) = w ++ sep ++ join sep (w' :: ws).
Proof. reflexivity. Qed.

Lemma split_from_space (acc rest : pystr) :
  split_from acc (py " " ++ rest)
  = match acc with
    | [] => split_from [] rest
    | _ :: _ => acc :: split_from [] rest
    end.
Proof. reflexivity. Qed.

Lemma split_join (ws : list pystr) :
  Forall word ws -> split (join (py " ") ws) = ws.
Proof.
  unfold split. induction 1 as [|w ws [Hne Hw] Hws IH]; [reflexivity|].
  destruct ws as [|w' ws].
  - cbn [join]. rewrite <- (app_nil_r w) at 1.
    rewrite split_from_solid by assumption. simpl.
    destruct w; [congruence | reflexivity].
  - rewrite join_cons, split_from_solid by assumption.
    cbn [app]. rewrite split_from_space, IH.
    destruct w; [congruence | reflexivity].
Qed.

(** Collapsing the whitespace of a collapsed text changes nothing. *)
Theorem collapse_whitespace_idempotent (s : pystr) :
  collapse_whitespace (collapse_whitespace s) = collapse_whitespace s.
Proof.
  unfold collapse_whitespace. rewrite split_join; [reflexivity|].
  apply split_words.
Qed.

Lemma tidy_solid (b : bool) (w rest : pystr) :
  solid w -> w <> [] -> tidy b (w ++ rest) = tidy false rest.
Proof.
  intros Hw. revert b. induction Hw as [|c w Hc Hw IH]; intros b Hne;
    [congruence|].
  simpl. rewrite Hc. destruct w as [|d w]; [reflexivity|].
  apply IH. discriminate.
Qed.

Lemma tidy_join (ws : list pystr) :
  Forall word ws -> tidy true (join (py " ") ws) = true.
Proof.
  induction 1 as [|w ws [Hne Hw] Hws IH]; [reflexivity|].
  destruct ws as [|w' ws].
  - cbn [join]. rewrite <- (app_nil_r w). now rewrite tidy_solid.
  - rewrite join_cons, tidy_solid by assumption.
    change (tidy true (join (py " ") (w' :: ws)) = true). exact IH.
Qed.

Lemma tidy_firstn (n : nat) (b : bool) (s : pystr) :
  tidy b s = true -> tidy b (firstn n s) = true.
Proof.
  revert n b; induction s as [|c s IH]; intros [|n] b; simpl; auto.
  destruct (is_space c).
  - intros H. apply andb_prop in H. destruct H as [-> H]. simpl. auto.
  - auto.
Qed.

Lemma tidy_snoc (b : bool) (s : pystr) (c : char) :
  is_space c = false -> tidy b s = true -> tidy b (s ++ [c]) = true.
Proof.
  intros Hc. revert b; induction s as [|d s IH]; intros b; simpl.
  - now rewrite Hc.
  - destruct (is_space d); [|auto].
    intros H. apply andb_prop in H. destruct H as [-> H]. simpl. auto.
Qed.

Lemma tidy_spaces (b : bool) (s : pystr) (c : char) :
  tidy b s = true -> In c s -> is_space c = true -> c = SPACE.
Proof.
  revert b; induction s as [|d s IH]; intros b; simpl; [tauto|].
  destruct (is_space d) eqn:E.
  - intros H [-> | Hin] Hc.
    + apply andb_prop in H. destruct H as [H _]. apply andb_prop in H.
      destruct H as [H _]. now apply char_eqb_eq in H.
    + apply andb_prop in H. destruct H as [_ H]. eauto.
  - intros H [-> | Hin] Hc; [congruence | eauto].
Qed.

Lemma tidy_no_double (b : bool) (pre post : pystr) :
  tidy b (pre ++ SPACE :: SPACE :: post) = false.
Proof.
  revert b; induction pre as [|d pre IH]; intros b.
  - simpl. change (is_space SPACE) with true. cbv iota.
    change (char_eqb SPACE SPACE) with true. simpl. now rewrite andb_false_r.
  - simpl. destruct (is_space d); [|apply IH].
    rewrite IH. apply andb_false_r.
Qed.

Lemma tidy_head (c : char) (t : pystr) :
  tidy true (c :: t) = true -> is_space c = false.
Proof.
  simpl. destruct (is_space c); [|reflexivity].
  rewrite andb_false_r. discriminate.
Qed.

Lemma join_last (ws : list pystr) (t : pystr) (c : char) :
  Forall word ws -> join (py " ") ws = t ++ [c] -> is_space c = false.
Proof.
  intros Hws. revert t. induction Hws as [|w ws [Hne Hw] Hws IH]; intros t.
  - simpl. intros H. destruct t; discriminate.
  - destruct ws as [|w' ws].
    + cbn [join]. intros ->. unfold solid in Hw. rewrite Forall_forall in Hw.
      apply Hw. apply in_or_app. right. now left.
    + rewrite join_cons. intros H.
      destruct (exists_last (l := join (py " ") (w' :: ws))) as (t' & c' & Ht).
      { inversion Hws as [|? ? [Hne' _] _]; subst.
        cbn [join]. destruct ws; destruct w'; try congruence; discriminate. }
      rewrite Ht in H. rewrite !app_assoc in H.
      apply app_inj_tail in H. destruct H as [_ <-]. eapply IH; eauto.
Qed.

Lemma normalized_words (raw : pystr) :
  exists ws, Forall word ws /\ normalized raw = join (py " ") ws.
Proof.
  unfold normalized, collapse_whitespace.
  eexists. split; [apply split_words | reflexivity].
Qed.

(** In a summary whitespace occurs only as single spaces between other
    code points: no tab or line break, no two spaces in a row, no space at
    the start or at the end. *)
Theorem clean_summary_whitespace (raw : pystr) :
  let out := _clean_summary raw in
  (forall c, In c out -> is_space c = true -> c = SPACE)
  /\ (forall pre post, out <> pre ++ SPACE :: SPACE :: post)
  /\ (forall c t, out = c :: t -> is_space c = false)
  /\ (forall t c, out = t ++ [c] -> is_space c = false).
Proof.
  cbv zeta. destruct (normalized_words raw) as (ws & Hws & Hn).
  assert (Htidy : tidy true (_clean_summary raw) = true).
  { unfold _clean_summary, truncate. rewrite Hn.
    destruct (280 <? _).
    - apply tidy_snoc; [reflexivity|]. apply tidy_firstn. now apply tidy_join.
    - now apply tidy_join. }
  split; [|split; [|split]].
  - intros c. exact (tidy_spaces true _ c Htidy).
  - intros pre post H. rewrite H in Htidy. rewrite tidy_no_double in Htidy.
    discriminate.
  - intros c t H. rewrite H in Htidy. now apply tidy_head in Htidy.
  - unfold _clean_summary, truncate. rewrite Hn.
    destruct (280 <? _).
    + intros t c H. apply app_inj_tail in H. destruct H as [_ <-]. reflexivity.
    + intros t c H. eapply join_last; eauto.
Qed.

(** ** Articles and dates, continued *)


(** *** Published_str *)

Lemma strftime_display_head (d : datetime) :
  exists c t, strftime_display d = c :: t /\ (49 <= c <= 57)%N.
Proof.
  unfold strftime_display.
  set (h12 := if hour d mod 12 =? 0 then 12 else hour d mod 12).
  assert (1 <= h12 <= 12) as Hh.
  { subst h12. pose proof (Z.mod_pos_bound (hour d) 12 ltac:(lia)).
    destruct (hour d mod 12 =? 0) eqn:E; zbool; lia. }
  clearbody h12. unfold no_pad. destruct (h12 <? 10) eqn:E; zbool.
  - eexists _, _. split; [reflexivity|]. unfold digit. lia.
  - assert (h12 / 10 = 1) as Hq
      by (symmetry; apply (Z.div_unique h12 10 1 (h12 - 10)); lia).
    unfold two_digits. rewrite Hq.
    eexists _, _. split; [reflexivity|]. unfold digit. simpl. lia.
Qed.

Lemma make_article_published_str (name cat : pystr) (e : entry)
  (pub : option datetime) :
  published_str (make_article name cat e pub) = py "Date unknown"
  <-> published (make_article name cat e pub) = None.
Proof.
  simpl. destruct pub as [d|]; [|tauto].
  split; [|discriminate].
  destruct (strftime_display_head d) as (c & t & -> & Hc).
  intros [= -> _]. lia.
Qed.

(** *** Parse_published *)

Lemma datetime_utc_valid (args : list Z) (d : datetime) :
  datetime_utc args = Ok d ->
  valid_components (year d) (month d) (day d) (hour d) (minute d) (second d)
  /\ 0 <= microsecond d <= 999999
  /\ ((length args <= 6)%nat -> microsecond d = 0).
Proof.
  unfold datetime_utc.
  destruct args as [|y [|m [|d0 time]]]; try discriminate.
  destruct (7 <? _); try discriminate.
  destruct (_ && _) eqn:E; try discriminate.
  intros [= <-].
  repeat (apply andb_prop in E; destruct E as [E ?]).
  unfold in_range in *.
  repeat match goal with
         | H : _ && _ = true |- _ => apply andb_prop in H; destruct H
         end.
  zbool. unfold valid_components. simpl.
  repeat split; try lia.
  intros Hlen. destruct time as [|a [|b [|c [|u time]]]]; simpl in *; lia.
Qed.

(** A date that [parse_published] returns is a calendar date and a time of
    day, has no microseconds, and is not below [datetime.min]. *)
Theorem parse_published_valid (e : entry) (d : datetime) :
  parse_published e = Ok (Some d) ->
  valid_components (year d) (month d) (day d) (hour d) (minute d) (second d)
  /\ microsecond d = 0
  /\ dt_le datetime_min d.
Proof.
  unfold parse_published.
  assert (forall l, (dt <- datetime_utc (firstn 6 l) ;; Ok (Some dt)) = Ok (Some d) ->
                    datetime_utc (firstn 6 l) = Ok d) as Hb.
  { intros l. destruct (datetime_utc (firstn 6 l)); simpl; congruence. }
  assert (forall l, datetime_utc (firstn 6 l) = Ok d ->
            valid_components (year d) (month d) (day d) (hour d) (minute d) (second d)
            /\ microsecond d = 0 /\ dt_le datetime_min d) as Hv.
  { intros l H. destruct (datetime_utc_valid _ _ H) as (H1 & _ & H3).
    repeat split; try apply H1.
    - apply H3. apply firstn_le_length.
    - eapply datetime_min_least; eauto. }
  cbn [first_datetime getattr].
  destruct (published_parsed e) as [[|x t]|];
    destruct (updated_parsed e) as [[|x' t']|];
    try discriminate; intros H; apply Hb in H; eauto.
Qed.

Lemma scan_returns (name cat : pystr) (cutoff : datetime) (max : Z)
  (entries : list entry) (acc : list article) :
  Forall parses entries ->
  exists arts, scan name cat cutoff max entries acc = Ok arts.
Proof.
  intros H. revert acc. induction H as [|e rest [pub Hp] _ IH]; intros acc.
  - simpl. eauto.
  - rewrite scan_cons, Hp.
    destruct (too_old pub cutoff); [apply IH|].
    destruct (max <=? _); [eauto | apply IH].
Qed.

Lemma accepted_app (name cat : pystr) (cutoff : datetime) (l1 l2 : list entry) :
  accepted name cat cutoff (l1 ++ l2)
  = accepted name cat cutoff l1 ++ accepted name cat cutoff l2.
Proof.
  induction l1 as [|e l1 IH]; simpl; [reflexivity|].
  destruct (parse_published e) as [pub|]; [|assumption].
  destruct (too_old pub cutoff); [assumption|]. simpl. now rewrite IH.
Qed.

Lemma scan_raises (name cat : pystr) (cutoff : datetime) (max : Z)
  (pre : list entry) (e : entry) (post : list entry) (acc : list article)
  (x : exn) :
  Forall parses pre ->
  Z.of_nat (length acc + length (accepted name cat cutoff pre)) < max ->
  parse_published e = Raise x ->
  scan name cat cutoff max (pre ++ e :: post) acc = Raise x.
Proof.
  intros Hpre. revert acc.
  induction Hpre as [|e0 pre [pub Hp] _ IH]; intros acc Hlen He.
  - simpl app. rewrite scan_cons, He. reflexivity.
  - simpl app. rewrite scan_cons, Hp. simpl in Hlen. rewrite Hp in Hlen.
    destruct (too_old pub cutoff); [now apply IH|].
    simpl in Hlen.
    destruct (max <=? _) eqn:E; zbool.
    + rewrite length_app in E. simpl in E. lia.
    + apply IH; [|assumption]. rewrite length_app. simpl. lia.
Qed.

(** The scan stands outside the [try] block: when it meets, within the
    first [2 * max_articles] entries and before the limit is reached, an
    entry whose time tuple [datetime] rejects, [fetch_feed] raises that
    exception. *)
Theorem fetch_feed_raises (w : env) (feed : feed_config) (age max : Z)
  (entries pre post : list entry) (e : entry) (cutoff : datetime) (x : exn) :
  retrieve w (url feed) = Ok entries ->
  sub_hours (now w) age = Ok cutoff ->
  firstn (Z.to_nat (2 * max)) entries = pre ++ e :: post ->
  Forall parses pre ->
  Z.of_nat (length (accepted (name feed)
                      (get_default (feed_category feed) GENERAL) cutoff pre))
  < max ->
  parse_published e = Raise x ->
  fetch_feed w feed age max = Raise x.
Proof.
  intros Hr Hc Hw Hpre Hlen He. unfold fetch_feed. rewrite Hr.
  assert (0 <= max) as Hmax by lia.
  destruct entries as [|e0 es].
  { rewrite firstn_nil in Hw. destruct pre; discriminate. }
  rewrite Hc. cbn [bind]. rewrite slice_to_nonneg by lia.
  replace (max * 2) with (2 * max) by lia. rewrite Hw.
  apply scan_raises; auto.
Qed.

(** [fetch_feed] returns a list whenever the cutoff can be computed and
    the time tuples of the first [2 * max_articles] entries make dates. *)
Theorem fetch_feed_returns (w : env) (feed : feed_config) (age max : Z) :
  (forall entries, retrieve w (url feed) = Ok entries -> entries <> [] ->
     (exists cutoff, sub_hours (now w) age = Ok cutoff)
     /\ Forall parses (slice_to entries (max * 2))) ->
  exists arts, fetch_feed w feed age max = Ok arts.
Proof.
  intros H. unfold fetch_feed.
  destruct (retrieve w (url feed)) as [[|e es]|]; eauto.
  destruct (H (e :: es) eq_refl ltac:(discriminate)) as [[cutoff ->] Hall].
  cbn [bind]. now apply scan_returns.
Qed.

Lemma fetch_feed_fresh (w : env) (feed : feed_config) (age max : Z)
  (arts : list article) (cutoff : datetime) :
  fetch_feed w feed age max = Ok arts ->
  sub_hours (now w) age = Ok cutoff ->
  Forall (fresh cutoff) arts.
Proof.
  unfold fetch_feed. intros Hf Hc.
  destruct (retrieve w (url feed)) as [[|e es]|]; try (inversion Hf; constructor).
  rewrite Hc in Hf. simpl in Hf.
  eapply scan_fresh; [exact Hf | constructor].
Qed.

Lemma fetch_feed_length (w : env) (feed : feed_config) (age max : Z)
  (arts : list article) :
  0 <= max -> fetch_feed w feed age max = Ok arts ->
  Z.of_nat (length arts) <= max.
Proof.
  intros Hmax. unfold fetch_feed.
  destruct (retrieve w (url feed)) as [[|e es]|];
    try (intros [= <-]; simpl; lia).
  destruct (sub_hours (now w) age) as [cutoff|]; [|discriminate].
  cbn [bind]. destruct (Z.eq_dec max 0) as [-> | Hpos].
  - simpl. intros [= <-]. simpl. lia.
  - intros Hs. apply scan_closed_form in Hs; [|simpl; lia].
    subst arts. simpl.
    pose proof (firstn_le_length (Z.to_nat max - 0)
                  (accepted (name feed) (get_default (feed_category feed) GENERAL)
                     cutoff (slice_to (e :: es) (max * 2)))).
    lia.
Qed.

(** The display string of an article is ["Date unknown"] exactly when the
    article has no date. *)
Theorem fetch_feed_published_str (w : env) (feed : feed_config) (age max : Z)
  (arts : list article) :
  fetch_feed w feed age max = Ok arts ->
  Forall (fun a => published_str a = py "Date unknown" <-> published a = None)
    arts.
Proof.
  unfold fetch_feed.
  destruct (retrieve w (url feed)) as [[|e es]|];
    try (intros [= <-]; constructor).
  destruct (sub_hours (now w) age) as [cutoff|]; [|discriminate].
  cbn [bind]. intros Hs.
  eapply scan_all; [|exact Hs | constructor].
  intros e' pub. apply make_article_published_str.
Qed.


(** ** The run, continued *)



(** *** Sort and filter *)

Lemma filter_comm {A : Type} (p q : A -> bool) (l : list A) :
  filter p (filter q l) = filter q (filter p l).
Proof.
  induction l as [|a l IH]; simpl; [reflexivity|].
  destruct (p a) eqn:Hp, (q a) eqn:Hq; simpl; rewrite ?Hp, ?Hq, IH; reflexivity.
Qed.

Lemma filter_sort_newest_first (f : article -> bool) (l : list article) :
  filter f (sort_newest_first l) = sort_newest_first (filter f l).
Proof.
  apply stable_sorted_unique.
  - apply strongly_sorted_filter, sort_newest_first_strongly_sorted.
  - apply sort_newest_first_strongly_sorted.
  - intros k. rewrite filter_comm, !sort_newest_first_stable.
    apply filter_comm.
Qed.

(** The bucket of a category is what sorting the articles of that category
    alone gives: bucketing the global sort and sorting each category are
    the same. *)
Theorem bucket_is_sorted_category (all_articles : list article) (c : pystr)
  (bucket : list article) :
  dict_get c (group_by_category (sort_newest_first all_articles)) = Some bucket ->
  bucket = sort_newest_first (filter (has_category c) all_articles).
Proof.
  rewrite dict_get_group_by_category, filter_sort_newest_first.
  destruct (sort_newest_first _); congruence.
Qed.

(** *** The order of the buckets *)

Lemma existsb_keys {V : Type} (c : pystr) (d : dict V) :
  existsb (str_eqb c) (keys d) = match dict_get c d with Some _ => true | None => false end.
Proof.
  induction d as [|[k v] d IH]; simpl; [reflexivity|].
  destruct (str_eqb k c) eqn:E.
  - apply str_eqb_eq in E; subst. now rewrite str_eqb_refl.
  - apply str_eqb_neq in E.
    replace (str_eqb c k) with false; [exact IH|].
    symmetry. apply str_eqb_neq. congruence.
Qed.

Lemma keys_fold_add_to_group (l : list article) (g : dict (list article)) :
  keys (fold_left add_to_group l g)
  = keys g ++ first_occurrences (keys g) (map category l).
Proof.
  revert g; induction l as [|a l IH]; intros g; simpl.
  - now rewrite app_nil_r.
  - rewrite IH. unfold add_to_group. rewrite keys_dict_set.
    rewrite existsb_keys.
    destruct (dict_get (category a) g); [reflexivity|].
    now rewrite <- app_assoc.
Qed.

(** The buckets stand in the order in which their categories first occur
    in the grouped list. *)
Theorem keys_group_by_category (l : list article) :
  keys (group_by_category l) = first_occurrences [] (map category l).
Proof. apply (keys_fold_add_to_group l []). Qed.

(** *** The loop over the feeds *)

Lemma fetch_all_cons (world : nat -> env) (i : nat) (age max : Z)
  (feed : feed_config) (rest : list feed_config)
  (all : list article) (cats : dict Z) :
  fetch_all world i age max (feed :: rest) all cats
  = match fetch_feed (world i) feed age max with
    | Ok r =>
        fetch_all world (S i) age max rest (all ++ r)
          (dict_set (category_of feed)
             (get_default (dict_get (category_of feed) cats) 0
              + Z.of_nat (length r)) cats)
    | Raise x => Raise x
    end.
Proof. simpl. destruct (fetch_feed (world i) feed age max); reflexivity. Qed.

Lemma fetch_all_results (world : nat -> env) (age max : Z)
  (feeds : list feed_config) (i : nat) (all : list article) (cats : dict Z)
  (collected : list article) (tally : dict Z) :
  fetch_all world i age max feeds all cats = Ok (collected, tally) ->
  exists results,
    length results = length feeds
    /\ (forall j feed r, nth_error feeds j = Some feed ->
          nth_error results j = Some r ->
          fetch_feed (world (i + j)%nat) feed age max = Ok r)
    /\ collected = all ++ concat results.
Proof.
  revert i all cats; induction feeds as [|feed rest IH]; intros i all cats.
  - simpl. intros [= <- <-]. exists []. repeat split.
    + intros [|j]; discriminate.
    + now rewrite app_nil_r.
  - rewrite fetch_all_cons.
    destruct (fetch_feed (world i) feed age max) as [r|] eqn:Hf; [|discriminate].
    intros H. apply IH in H. destruct H as (results & Hlen & Hnth & ->).
    exists (r :: results). repeat split.
    + simpl. now rewrite Hlen.
    + intros [|j] f r'; simpl.
      * intros [= <-] [= <-]. now rewrite Nat.add_0_r.
      * intros H1 H2. rewrite Nat.add_succ_r. now apply (Hnth j).
    + simpl. now rewrite app_assoc.
Qed.

(** The collected list is the concatenation, in configuration order, of
    the lists the feeds return. *)
Theorem fetch_all_concat (world : nat -> env) (age max : Z)
  (feeds : list feed_config) (collected : list article) (tally : dict Z) :
  fetch_all world 0 age max feeds [] [] = Ok (collected, tally) ->
  exists results,
    length results = length feeds
    /\ (forall j feed r, nth_error feeds j = Some feed ->
          nth_error results j = Some r ->
          fetch_feed (world j) feed age max = Ok r)
    /\ collected = concat results.
Proof. apply fetch_all_results. Qed.

Lemma collected_origin (world : nat -> env) (age max : Z)
  (feeds : list feed_config) (collected : list article) (tally : dict Z)
  (a : article) :
  fetch_all world 0 age max feeds [] [] = Ok (collected, tally) ->
  In a collected ->
  exists j feed r,
    nth_error feeds j = Some feed
    /\ fetch_feed (world j) feed age max = Ok r /\ In a r.
Proof.
  intros H Ha. apply fetch_all_results in H.
  destruct H as (results & Hlen & Hnth & ->). simpl in Ha.
  apply in_concat in Ha. destruct Ha as (r & Hr & Ha).
  apply In_nth_error in Hr. destruct Hr as (j & Hj).
  assert (j < length feeds)%nat as Hlt.
  { rewrite <- Hlen. apply nth_error_Some. congruence. }
  destruct (nth_error feeds j) as [feed|] eqn:Hfeed;
    [|apply nth_error_None in Hfeed; lia].
  exists j, feed, r. repeat split; auto. now apply (Hnth j).
Qed.

Lemma fetch_feed_all (P : article -> Prop) (w : env) (feed : feed_config)
  (age max : Z) (arts : list article) :
  (forall e pub, P (make_article (name feed) (category_of feed) e pub)) ->
  fetch_feed w feed age max = Ok arts -> Forall P arts.
Proof.
  intros HP. unfold fetch_feed.
  destruct (retrieve w (url feed)) as [[|e es]|];
    try (intros [= <-]; constructor).
  destruct (sub_hours (now w) age) as [cutoff|]; [|discriminate].
  cbn [bind]. intros Hs.
  eapply scan_all; [|exact Hs | constructor]. exact HP.
Qed.

Lemma In_grouped (l : list article) (c : pystr) (bucket : list article)
  (a : article) :
  In (c, bucket) (group_by_category l) -> In a bucket ->
  In a l /\ category a = c.
Proof.
  intros Hin Ha.
  apply In_dict_get in Hin; [|apply NoDup_keys_group_by_category].
  rewrite dict_get_group_by_category in Hin.
  assert (bucket = filter (has_category c) l) as ->
      by (destruct (filter _ _); congruence).
  apply filter_In in Ha. destruct Ha as [Ha Hc].
  apply str_eqb_eq in Hc. auto.
Qed.

(** Every article of the digest comes from a configured feed: it carries
    that feed's name and category, and if it is dated, its date is not
    before the cutoff of that feed's fetch. *)
Theorem build_digest_provenance (world : nat -> env) (cfg : config) (d : digest)
  (c : pystr) (bucket : list article) (a : article) :
  build_digest world cfg = Ok d ->
  In (c, bucket) (grouped d) -> In a bucket ->
  exists j feed,
    nth_error (feeds cfg) j = Some feed
    /\ source a = name feed
    /\ category a = category_of feed
    /\ c = category_of feed
    /\ (forall cutoff,
          sub_hours (now (world j)) (digest_max_age_hours d) = Ok cutoff ->
          fresh cutoff a).
Proof.
  unfold build_digest.
  destruct (fetch_all _ _ _ _ _ _ _) as [[collected tally]|] eqn:Hall;
    [|discriminate].
  cbn [bind fst]. intros [= <-]. cbn [grouped digest_max_age_hours].
  intros Hin Ha. destruct (In_grouped _ _ _ _ Hin Ha) as [Hs Hc].
  apply (Permutation_in _ (Permutation_sym (sort_newest_first_perm collected)))
    in Hs.
  destruct (collected_origin _ _ _ _ _ _ _ Hall Hs) as (j & feed & r & Hj & Hf & Hr).
  exists j, feed.
  pose proof (fetch_feed_all
                (fun a => source a = name feed /\ category a = category_of feed)
                _ _ _ _ _ (fun _ _ => conj eq_refl eq_refl) Hf) as Hsc.
  rewrite Forall_forall in Hsc. destruct (Hsc a Hr) as [H1 H2].
  repeat split; auto; [congruence|].
  intros cutoff Hcut.
  pose proof (fetch_feed_fresh _ _ _ _ _ _ Hf Hcut) as Hfr.
  rewrite Forall_forall in Hfr. auto.
Qed.


(** *** The tally *)

Lemma In_keys_dict_set {V : Type} (d : dict V) (k c : pystr) (v : V) :
  In c (keys (dict_set k v d)) <-> c = k \/ In c (keys d).
Proof.
  rewrite keys_dict_set. destruct (dict_get k d) eqn:E.
  - split; [tauto|]. intros [-> | H]; [|assumption].
    apply dict_get_In in E. unfold keys.
    change k with (fst (k, v0)). now apply in_map.
  - rewrite in_app_iff. simpl. split; intros H; intuition.
Qed.

Lemma filter_category_all (c c' : pystr) (r : list article) :
  Forall (fun a => category a = c') r ->
  filter (has_category c) r = if str_eqb c' c then r else [].
Proof.
  induction 1 as [|a r Ha Hr IH]; simpl.
  - now destruct (str_eqb c' c).
  - unfold has_category at 1. rewrite Ha, IH. now destruct (str_eqb c' c).
Qed.

Lemma fetch_all_tally (world : nat -> env) (age max : Z)
  (feeds : list feed_config) (i : nat) (all : list article) (cats : dict Z)
  (collected : list article) (tally : dict Z) :
  fetch_all world i age max feeds all cats = Ok (collected, tally) ->
  (forall c, get_default (dict_get c cats) 0
             = Z.of_nat (length (filter (has_category c) all))) ->
  (forall c, get_default (dict_get c tally) 0
             = Z.of_nat (length (filter (has_category c) collected)))
  /\ (forall c, In c (keys tally) <->
                In c (keys cats) \/ exists feed, In feed feeds /\ c = category_of feed).
Proof.
  revert i all cats; induction feeds as [|feed rest IH]; intros i all cats.
  - simpl. intros [= <- <-] Hinv. split; [assumption|].
    intros c. split; [tauto|]. intros [H | (f & [] & _)]; assumption.
  - rewrite fetch_all_cons.
    destruct (fetch_feed (world i) feed age max) as [r|] eqn:Hf; [|discriminate].
    intros H Hinv. apply IH in H.
    + destruct H as [Hcount Hkeys]. split; [assumption|].
      intros c. rewrite Hkeys, In_keys_dict_set. simpl. split.
      * intros [[-> | H] | (f & Hf' & ->)]; eauto.
      * intros [H | (f & [<- | Hf'] & ->)]; eauto.
    + intros c.
      assert (Forall (fun a => category a = category_of feed) r) as Hcat.
      { eapply fetch_feed_all; [|exact Hf]. reflexivity. }
      rewrite filter_app, length_app, (filter_category_all _ _ _ Hcat).
      destruct (str_eqb (category_of feed) c) eqn:E.
      * apply str_eqb_eq in E; subst c.
        rewrite dict_get_set_same. simpl. rewrite Hinv. lia.
      * apply str_eqb_neq in E. rewrite dict_get_set_other by assumption.
        rewrite Hinv. simpl. lia.
Qed.

(** The tally has one key for every category of a configured feed, also of
    a feed that failed, and counts under it the collected articles of that
    category. *)
Theorem fetch_all_tally_counts (world : nat -> env) (age max : Z)
  (feeds : list feed_config) (collected : list article) (tally : dict Z) :
  fetch_all world 0 age max feeds [] [] = Ok (collected, tally) ->
  (forall c, In c (keys tally) <-> exists feed, In feed feeds /\ c = category_of feed)
  /\ (forall c n, dict_get c tally = Some n ->
        n = Z.of_nat (length (filter (has_category c) collected))).
Proof.
  intros H. apply fetch_all_tally in H; [|reflexivity].
  destruct H as [Hcount Hkeys]. split.
  - intros c. rewrite Hkeys. simpl. tauto.
  - intros c n Hn. specialize (Hcount c). now rewrite Hn in Hcount.
Qed.

(** *** Bounds *)

Lemma fetch_all_bounds (world : nat -> env) (age max : Z)
  (feeds : list feed_config) (i : nat) (all : list article) (cats : dict Z)
  (collected : list article) (tally : dict Z) :
  0 <= max ->
  fetch_all world i age max feeds all cats = Ok (collected, tally) ->
  Z.of_nat (length collected)
  <= Z.of_nat (length all) + max * Z.of_nat (length feeds)
  /\ forall c,
       Z.of_nat (length (filter (has_category c) collected))
       <= Z.of_nat (length (filter (has_category c) all))
          + max * Z.of_nat (length (feeds_of c feeds)).
Proof.
  intros Hmax.
  revert i all cats; induction feeds as [|feed rest IH]; intros i all cats.
  - simpl. intros [= <- <-]. split; [lia | intros c; lia].
  - rewrite fetch_all_cons.
    destruct (fetch_feed (world i) feed age max) as [r|] eqn:Hf; [|discriminate].
    intros H. apply IH in H. destruct H as [Htot Hcat].
    pose proof (fetch_feed_length _ _ _ _ _ Hmax Hf) as Hr.
    split.
    + rewrite length_app in Htot. simpl length. lia.
    + intros c. specialize (Hcat c).
      assert (Forall (fun a => category a = category_of feed) r) as Hc.
      { eapply fetch_feed_all; [|exact Hf]. reflexivity. }
      rewrite filter_app, length_app, (filter_category_all _ _ _ Hc) in Hcat.
      unfold feeds_of in *. simpl filter.
      destruct (str_eqb (category_of feed) c); simpl length in *; lia.
Qed.

(** With a limit that is not negative, the digest holds at most
    [max_articles_per_feed] articles for every configured feed, and a
    bucket at most that many for every feed of its category. *)
Theorem build_digest_bounds (world : nat -> env) (cfg : config) (d : digest) :
  0 <= get_default (max_articles_per_feed (config_settings cfg)) 10 ->
  build_digest world cfg = Ok d ->
  total d
  <= get_default (max_articles_per_feed (config_settings cfg)) 10
     * Z.of_nat (length (feeds cfg))
  /\ forall c bucket,
       In (c, bucket) (grouped d) ->
       Z.of_nat (length bucket)
       <= get_default (max_articles_per_feed (config_settings cfg)) 10
          * Z.of_nat (length (feeds_of c (feeds cfg))).
Proof.
  intros Hmax. unfold build_digest.
  destruct (fetch_all _ _ _ _ _ _ _) as [[collected tally]|] eqn:Hall;
    [|discriminate].
  cbn [bind fst]. intros [= <-]. cbn [grouped total].
  destruct (fetch_all_bounds _ _ _ _ _ _ _ _ _ Hmax Hall) as [Htot Hcat].
  split.
  - rewrite <- (Permutation_length (sort_newest_first_perm collected)).
    simpl in Htot. lia.
  - intros c bucket Hin.
    apply In_dict_get in Hin; [|apply NoDup_keys_group_by_category].
    rewrite dict_get_group_by_category in Hin.
    assert (bucket = filter (has_category c) (sort_newest_first collected)) as ->
        by (destruct (filter _ _); congruence).
    rewrite filter_sort_newest_first.
    rewrite <- (Permutation_length (sort_newest_first_perm _)).
    specialize (Hcat c). simpl in Hcat. lia.
Qed.

(** *** Exceptions *)

Lemma fetch_all_raises (world : nat -> env) (age max : Z) (j : nat) :
  forall (feeds : list feed_config) (i : nat) (all : list article)
         (cats : dict Z) (feed : feed_config) (x : exn),
  (forall k f, (k < j)%nat -> nth_error feeds k = Some f ->
               exists r, fetch_feed (world (i + k)%nat) f age max = Ok r) ->
  nth_error feeds j = Some feed ->
  fetch_feed (world (i + j)%nat) feed age max = Raise x ->
  fetch_all world i age max feeds all cats = Raise x.
Proof.
  induction j as [|j IH]; intros [|f0 rest] i all cats feed x Hbefore Hj Hx;
    try discriminate.
  - simpl in Hj. injection Hj as ->. rewrite Nat.add_0_r in Hx.
    now rewrite fetch_all_cons, Hx.
  - rewrite fetch_all_cons.
    destruct (Hbefore 0%nat f0 ltac:(lia) eq_refl) as [r Hr].
    rewrite Nat.add_0_r in Hr. rewrite Hr.
    apply (IH rest (S i) _ _ feed x).
    + intros k f Hk Hf. specialize (Hbefore (S k) f ltac:(lia) Hf).
      now rewrite Nat.add_succ_r in Hbefore.
    + exact Hj.
    + now rewrite Nat.add_succ_r in Hx.
Qed.

(** The first exception that a fetch raises leaves the loop over the
    feeds: nothing is collected and the feeds after it are not fetched. *)
Theorem feed_loop_raises (world : nat -> env) (age max : Z)
  (feed_cfgs : list feed_config) (j : nat) (feed : feed_config) (x : exn) :
  (forall k f, (k < j)%nat -> nth_error feed_cfgs k = Some f ->
     exists r, fetch_feed (world k) f age max = Ok r) ->
  nth_error feed_cfgs j = Some feed ->
  fetch_feed (world j) feed age max = Raise x ->
  fetch_all world 0 age max feed_cfgs [] [] = Raise x.
Proof.
  intros Hbefore Hj Hx.
  apply (fetch_all_raises world age max j feed_cfgs 0 [] [] feed x); auto.
Qed.

(** *** Titles *)


Lemma lstrip_head (s : pystr) (c : char) (t : pystr) :
  lstrip s = c :: t -> is_space c = false.
Proof.
  induction s as [|d s IH]; simpl; [discriminate|].
  destruct (is_space d) eqn:E; [assumption|]. intros [= <- _]. assumption.
Qed.

Lemma lstrip_suffix (s : pystr) : exists pre, s = pre ++ lstrip s.
Proof.
  induction s as [|d s [pre IH]]; simpl; [now exists []|].
  destruct (is_space d).
  - exists (d :: pre). simpl. now f_equal.
  - now exists [].
Qed.

Lemma strip_trimmed (s : pystr) : trimmed (strip s).
Proof.
  unfold strip. split.
  - intros c t H.
    destruct (lstrip_suffix (rev (lstrip s))) as [pre Hpre].
    apply (f_equal (@rev char)) in Hpre.
    rewrite rev_involutive, rev_app_distr, H in Hpre. simpl in Hpre.
    eapply lstrip_head. exact Hpre.
  - intros t c H. apply (f_equal (@rev char)) in H.
    rewrite rev_involutive, rev_app_distr in H. simpl in H.
    eapply lstrip_head. exact H.
Qed.

(** The title of an article has no whitespace at its start or at its end
    (it may be empty). *)
Theorem fetch_feed_titles_trimmed (w : env) (feed : feed_config) (age max : Z)
  (arts : list article) :
  fetch_feed w feed age max = Ok arts ->
  Forall (fun a => trimmed (title a)) arts.
Proof.
  apply fetch_feed_all. intros e pub. simpl. apply strip_trimmed.
Qed.

(** A title of whitespace only comes out empty: the default is not put in
    its place. *)
Lemma strip_blank (s : pystr) :
  Forall (fun c => is_space c = true) s -> strip s = [].
Proof.
  intros H. unfold strip.
  assert (lstrip s = []) as ->; [|reflexivity].
  induction H as [|c s Hc _ IH]; simpl; [reflexivity|]. now rewrite Hc.
Qed.

(** ** The further properties on the scenario *)

Lemma strip_tags_no_bracket_witness :
  strip_tags (py "a<b") = py "a<b".
Proof.
  apply strip_tags_no_bracket. right. vm_compute. intuition discriminate.
Defined.

Lemma strip_tags_removes_tag_witness :
  strip_tags (py "Hi " ++ LT :: py "br/" ++ GT :: py " there")
  = py "Hi " ++ strip_tags (py " there").
Proof.
  apply strip_tags_removes_tag.
  - vm_compute. intuition discriminate.
  - discriminate.
  - vm_compute. intuition discriminate.
Defined.

Lemma fetch_feed_published_str_witness :
  Forall (fun a => published_str a = py "Date unknown" <-> published a = None)
    [Scenario.b_ten; Scenario.b_undated].
Proof.
  apply (fetch_feed_published_str Scenario.outside Scenario.feed_b 24 10).
  vm_compute. reflexivity.
Defined.

Lemma parse_published_valid_witness :
  valid_components 2024 3 10 12 0 0
  /\ microsecond (mk_datetime 2024 3 10 12 0 0 0) = 0
  /\ dt_le datetime_min (mk_datetime 2024 3 10 12 0 0 0).
Proof.
  apply (parse_published_valid
           (Scenario.dated (py "A noon") (py "http://a/1") 2024 3 10 12 0 0)
           (mk_datetime 2024 3 10 12 0 0 0)).
  vm_compute. reflexivity.
Defined.

Lemma fetch_feed_raises_witness :
  fetch_feed Scenario.leap_second Scenario.feed_a 24 10 = Raise ValueError.
Proof.
  apply (fetch_feed_raises Scenario.leap_second Scenario.feed_a 24 10
           [Scenario.dated (py "Leap") (py "http://l/1") 2016 12 31 23 59 60]
           [] []
           (Scenario.dated (py "Leap") (py "http://l/1") 2016 12 31 23 59 60)
           (mk_datetime 2016 12 31 0 0 0 0) ValueError).
  - vm_compute. reflexivity.
  - vm_compute. reflexivity.
  - reflexivity.
  - constructor.
  - simpl. lia.
  - vm_compute. reflexivity.
Defined.

Lemma fetch_feed_returns_witness :
  exists arts, fetch_feed Scenario.outside Scenario.feed_a 24 10 = Ok arts.
Proof.
  apply fetch_feed_returns. intros entries H _.
  vm_compute in H. injection H as <-. split.
  - eexists. vm_compute. reflexivity.
  - repeat constructor; eexists; vm_compute; reflexivity.
Defined.

Lemma fetch_feed_titles_trimmed_witness :
  Forall (fun a => trimmed (title a))
    [Scenario.a_noon; Scenario.a_eleven; Scenario.a_nine].
Proof.
  apply (fetch_feed_titles_trimmed Scenario.outside Scenario.feed_a 24 10).
  vm_compute. reflexivity.
Defined.

Lemma fetch_all_concat_witness :
  exists results,
    length results = length (feeds Scenario.cfg)
    /\ (forall j feed r, nth_error (feeds Scenario.cfg) j = Some feed ->
          nth_error results j = Some r ->
          fetch_feed (Scenario.world j) feed 24 10 = Ok r)
    /\ [Scenario.a_noon; Scenario.a_eleven; Scenario.a_nine;
        Scenario.b_ten; Scenario.b_undated] = concat results.
Proof.
  apply (fetch_all_concat Scenario.world 24 10 (feeds Scenario.cfg) _
           [(py "Tech", 3); (py "General", 0); (py "News", 2)]).
  vm_compute. reflexivity.
Defined.

Lemma fetch_all_tally_counts_witness :
  (forall c, In c (keys [(py "Tech", 3); (py "General", 0); (py "News", 2)])
             <-> exists feed, In feed (feeds Scenario.cfg) /\ c = category_of feed)
  /\ (forall c n,
        dict_get c [(py "Tech", 3); (py "General", 0); (py "News", 2)] = Some n ->
        n = Z.of_nat (length (filter (has_category c)
                                [Scenario.a_noon; Scenario.a_eleven;
                                 Scenario.a_nine; Scenario.b_ten;
                                 Scenario.b_undated]))).
Proof.
  apply (fetch_all_tally_counts Scenario.world 24 10 (feeds Scenario.cfg)).
  vm_compute. reflexivity.
Defined.

Lemma build_digest_provenance_witness :
  exists j feed,
    nth_error (feeds Scenario.cfg) j = Some feed
    /\ source Scenario.a_noon = name feed
    /\ category Scenario.a_noon = category_of feed
    /\ py "Tech" = category_of feed
    /\ (forall cutoff,
          sub_hours (now (Scenario.world j))
            (digest_max_age_hours Scenario.expected) = Ok cutoff ->
          fresh cutoff Scenario.a_noon).
Proof.
  apply (build_digest_provenance Scenario.world Scenario.cfg Scenario.expected
           (py "Tech") [Scenario.a_noon; Scenario.a_eleven; Scenario.a_nine]).
  - vm_compute. reflexivity.
  - left. reflexivity.
  - left. reflexivity.
Defined.

Lemma build_digest_bounds_witness :
  total Scenario.expected
  <= get_default (max_articles_per_feed (config_settings Scenario.cfg)) 10
     * Z.of_nat (length (feeds Scenario.cfg))
  /\ forall c bucket,
       In (c, bucket) (grouped Scenario.expected) ->
       Z.of_nat (length bucket)
       <= get_default (max_articles_per_feed (config_settings Scenario.cfg)) 10
          * Z.of_nat (length (feeds_of c (feeds Scenario.cfg))).
Proof.
  apply (build_digest_bounds Scenario.world Scenario.cfg Scenario.expected).
  - vm_compute. discriminate.
  - vm_compute. reflexivity.
Defined.

Lemma bucket_is_sorted_category_witness :
  [Scenario.a_noon; Scenario.a_eleven; Scenario.a_nine]
  = sort_newest_first
      (filter (has_category (py "Tech"))
         [Scenario.b_undated; Scenario.a_nine; Scenario.b_ten;
          Scenario.a_noon; Scenario.a_eleven]).
Proof.
  apply bucket_is_sorted_category. vm_compute. reflexivity.
Defined.

Lemma feed_loop_raises_witness :
  fetch_all Scenario.world_leap 0 24 10
    [Scenario.feed_a; Scenario.feed_c; Scenario.feed_b] [] []
  = Raise ValueError.
Proof.
  apply (feed_loop_raises Scenario.world_leap 24 10
           [Scenario.feed_a; Scenario.feed_c; Scenario.feed_b] 1
           Scenario.feed_c ValueError).
  - intros k f Hk. destruct k; [|lia]. simpl. intros [= <-].
    eexists. vm_compute. reflexivity.
  - reflexivity.
  - vm_compute. reflexivity.
Defined.
